(** * windups: the [useWindup] hook (src/react/useWindup.ts)

    A shallow embedding of the hook that drives a windup: its reducer, its
    callbacks [skip] and [rewind], its five effects, and the part of the
    React and timer runtime the hook relies on (effect dependencies and
    cleanups, batched dispatches, [setTimeout] / [clearTimeout]).

    The modules the hook imports ("../Windup", "./Pace", "./OnChar") are an
    interface here ([WindupModule]); the theorems about the hook hold for
    every implementation of it.  [SpecModel] is the implementation described
    by the specification's progression model.

    Events are taken one at a time: a timeout firing, a call of [skip] or
    [rewind], a render with new arguments.  A render, the commit of its
    effects and the renders its dispatches cause are one step, so no timeout
    fires between a commit and its effects.  The caller calls the callbacks
    of the latest render and does not mutate the [options] object. *)

From Stdlib Require Import List ZArith Bool String Arith Lia.
Import ListNotations.

Set Implicit Arguments.

(** ** Values the hook handles *)

(** A JavaScript [number] as far as the hook is concerned: the hook never
    computes with a delay, it only hands the literal [0] or the pace
    function's result to [setTimeout].  Finite delays are whole
    milliseconds. *)
Inductive number : Type :=
| Num (ms : Z)
| NaN
| PosInfinity
| NegInfinity.

(** User callbacks are opaque to the hook: they are named, and a call is
    recorded in the trace. *)
Definition CallbackName := nat.

Definition PaceFn := string -> option string -> number.

(** [interface HookMetadata] *)
Record HookMetadata : Type := mkHookMetadata {
  onChar : option CallbackName;
  pace : option PaceFn
}.

(** Identity of the [options] argument.  A caller either keeps one object
    across renders, or writes an object literal in the component body, which
    is a new object at every render. *)
Inductive Identity : Type :=
| Stable (id : nat)
| FreshEachRender.

Definition sameObject (a b : Identity) : bool :=
  match a, b with
  | Stable i, Stable j => Nat.eqb i j
  | _, _ => false
  end.

(** [options: { onFinished?: () => void; skipped?: boolean }] *)
Record Options : Type := mkOptions {
  onFinished : option CallbackName;
  skipped : option bool;
  identity : Identity
}.

(** JavaScript truthiness of a [string | undefined]. *)
Definition truthy (el : option string) : bool :=
  match el with
  | Some EmptyString => false
  | Some _ => true
  | None => false
  end.

(** ** The imported modules *)

Class WindupModule : Type := {
  Windup : Type;
  (** [Object.is] on two windups, as [useEffect] compares dependencies. *)
  Object_is : Windup -> Windup -> bool;
  Object_is_refl : forall w, Object_is w w = true;
  (* "../Windup" *)
  isFinished : Windup -> bool;
  lastPlayedElement : Windup -> option string;
  nextElement : Windup -> option string;
  next : Windup -> Windup;
  fastForward : Windup -> Windup;
  rewind : Windup -> Windup;
  (* "./Pace" *)
  paceFromWindup : Windup -> option PaceFn;
  defaultGetPace : PaceFn;
  (* "./OnChar" *)
  onCharsFromWindup : Windup -> list CallbackName
}.

(** ** The reducer *)

Section Reducer.
Context {WM : WindupModule}.

Record WindupReducerState : Type := mkState {
  windup : Windup;
  didFinishOnce : bool
}.

Inductive WindupReducerAction : Type :=
| Replace (w : Windup)
| Next
| Rewind
| FastForward
| Finish.

Definition initWindupState (w : Windup) : WindupReducerState :=
  {| windup := w; didFinishOnce := false |}.

Definition windupReducer (state : WindupReducerState)
    (action : WindupReducerAction) : WindupReducerState :=
  match action with
  | Replace w => initWindupState w
  | Next => {| windup := next (windup state); didFinishOnce := didFinishOnce state |}
  | Rewind => {| windup := rewind (windup state); didFinishOnce := false |}
  | FastForward =>
      {| windup := fastForward (windup state); didFinishOnce := didFinishOnce state |}
  | Finish => {| windup := windup state; didFinishOnce := true |}
  end.

End Reducer.

(** ** The runtime the hook runs in *)

Section Runtime.
Context {WM : WindupModule}.

(** The two closures the hook hands to [setTimeout]. *)
Inductive TimerCallback : Type :=
| AdvanceCallback                       (* () => dispatch({ type: "next" }) *)
| FinishCallback (options : Options).   (* calls options.onFinished, dispatches "finish" *)

(** What the hook does to the outside, in the order it does it. *)
Inductive Observation : Type :=
| SetTimeout (handle : nat) (callback : TimerCallback) (delay : number)
| ClearTimeout (handle : nat)
| OnChar (f : CallbackName) (char : string)
| OnFinished (f : CallbackName).

Record World : Type := mkWorld {
  timeoutRef : option nat;                 (* timeoutRef.current *)
  timers : list (nat * TimerCallback);     (* pending timeouts *)
  nextHandle : nat;                        (* handles are never reused *)
  queue : list WindupReducerAction;        (* dispatched, not yet reduced *)
  trace : list Observation
}.

(** Handles are truthy, so they start at 1. *)
Definition emptyWorld : World :=
  {| timeoutRef := None; timers := []; nextHandle := 1; queue := []; trace := [] |}.

(** State monad over the world. *)
Definition M (A : Type) : Type := World -> A * World.

Definition ret {A} (a : A) : M A := fun w => (a, w).

Definition bind {A B} (m : M A) (k : A -> M B) : M B :=
  fun w => let (a, w') := m w in k a w'.

Definition exec {A} (m : M A) (w : World) : World := snd (m w).

Definition when (b : bool) (m : M unit) : M unit :=
  if b then m else ret tt.

Definition whenSome {A} (o : option A) (k : A -> M unit) : M unit :=
  match o with
  | Some a => k a
  | None => ret tt
  end.

Fixpoint forEach {A} (l : list A) (k : A -> M unit) : M unit :=
  match l with
  | [] => ret tt
  | a :: l' => bind (k a) (fun _ => forEach l' k)
  end.

Definition observe (o : Observation) : M unit :=
  fun w => (tt, {| timeoutRef := timeoutRef w; timers := timers w;
                   nextHandle := nextHandle w; queue := queue w;
                   trace := trace w ++ [o] |}).

Definition readRef : M (option nat) := fun w => (timeoutRef w, w).

Definition writeRef (h : nat) : M unit :=
  fun w => (tt, {| timeoutRef := Some h; timers := timers w;
                   nextHandle := nextHandle w; queue := queue w;
                   trace := trace w |}).

Definition dispatch (a : WindupReducerAction) : M unit :=
  fun w => (tt, {| timeoutRef := timeoutRef w; timers := timers w;
                   nextHandle := nextHandle w; queue := queue w ++ [a];
                   trace := trace w |}).

Definition setTimeout (cb : TimerCallback) (delay : number) : M nat :=
  fun w => let h := nextHandle w in
    (h, {| timeoutRef := timeoutRef w; timers := timers w ++ [(h, cb)];
           nextHandle := S h; queue := queue w;
           trace := trace w ++ [SetTimeout h cb delay] |}).

Definition dropTimer (h : nat) (ts : list (nat * TimerCallback)) :=
  filter (fun t => negb (Nat.eqb (fst t) h)) ts.

Definition clearTimeout (h : nat) : M unit :=
  fun w => (tt, {| timeoutRef := timeoutRef w; timers := dropTimer h (timers w);
                   nextHandle := nextHandle w; queue := queue w;
                   trace := trace w ++ [ClearTimeout h] |}).

Fixpoint findTimer (h : nat) (ts : list (nat * TimerCallback)) : option TimerCallback :=
  match ts with
  | [] => None
  | (h', cb) :: ts' => if Nat.eqb h' h then Some cb else findTimer h ts'
  end.

(** The runtime takes a due timer off the table before it runs it. *)
Definition takeTimer (h : nat) : M (option TimerCallback) :=
  fun w => (findTimer h (timers w),
            {| timeoutRef := timeoutRef w; timers := dropTimer h (timers w);
               nextHandle := nextHandle w; queue := queue w; trace := trace w |}).

Definition clearQueue (w : World) : World :=
  {| timeoutRef := timeoutRef w; timers := timers w; nextHandle := nextHandle w;
     queue := []; trace := trace w |}.

End Runtime.

Declare Scope hook_scope.
Delimit Scope hook_scope with hook.
Notation "x <- m ;; k" := (bind m (fun x => k))
  (at level 61, m at next level, right associativity) : hook_scope.
Notation "m ;; k" := (bind m (fun _ => k))
  (at level 61, right associativity) : hook_scope.

(** ** The hook *)

Section Hook.
Context {WM : WindupModule}.
Local Open Scope hook_scope.

(** The arguments of [useWindup]. *)
Record Props : Type := mkProps {
  windupInit : Windup;
  options : Options
}.

(** What a render saw: the effects' dependency arrays and the closures of
    [skip] and of the timeouts are taken from it. *)
Record Render : Type := mkRender {
  renderProps : Props;
  renderState : WindupReducerState
}.

Record Component : Type := mkComponent {
  state : WindupReducerState;       (* useReducer *)
  lastRender : option Render;       (* None before the first render *)
  finishedCleanup : option nat;     (* cleanup left by the onFinished effect:
                                       the timeout it will clear *)
  windupCleanup : bool;             (* whether the windup effect left its cleanup *)
  world : World
}.

(** *** Callbacks returned to the caller *)

Definition skip (windupIsFinished : bool) : M unit :=
  when (negb windupIsFinished)
    (current <- readRef ;;
     whenSome current clearTimeout ;;
     dispatch FastForward).

(** The hook's [rewind] callback (the imported [rewind] keeps its name). *)
Definition rewindRequest : M unit :=
  current <- readRef ;;
  whenSome current clearTimeout ;;
  dispatch Rewind.

(** *** Effects, in the order the hook declares them *)

(** "If windup arg changes, we should reset" *)
Definition replaceEffect (windupInit : Windup) : M unit :=
  dispatch (Replace windupInit).

(** "If skipped is changes to true, we should skip.  And if it's changed
    to false, we should restart" *)
Definition skippedEffect (options : Options) : M unit :=
  current <- readRef ;;
  whenSome current clearTimeout ;;
  when (match skipped options with Some true => true | _ => false end)
    (dispatch FastForward) ;;
  when (match skipped options with Some false => true | _ => false end)
    (dispatch Rewind).

(** "When the windup changes, onChar should fire" *)
Definition onCharEffect (windup : Windup) : M unit :=
  let onChars := onCharsFromWindup windup in
  let lastEl := lastPlayedElement windup in
  if (0 <? List.length onChars) && truthy lastEl then
    match lastEl with
    | Some el => forEach onChars (fun f => observe (OnChar f el))
    | None => ret tt
    end
  else ret tt.

(** "If windup finishes, the onFinished should fire".  The result is the
    cleanup: the timeout to clear, if one was set. *)
Definition onFinishedEffect (didFinishOnce windupIsFinished : bool)
    (options : Options) : M (option nat) :=
  if negb didFinishOnce && windupIsFinished then
    timeout <- setTimeout (FinishCallback options) (Num 0) ;;
    ret (Some timeout)
  else ret None.

(** The delay expression [lastEl ? getPace(lastEl, nextEl) : 0]. *)
Definition advanceDelay (windup : Windup) : number :=
  let getPace :=
    match paceFromWindup windup with Some f => f | None => defaultGetPace end in
  let lastEl := lastPlayedElement windup in
  let nextEl := nextElement windup in
  match lastEl with
  | Some el => if truthy lastEl then getPace el nextEl else Num 0
  | None => Num 0
  end.

(** "the windup effect itself".  The result tells whether the cleanup was
    returned. *)
Definition windupEffect (windup : Windup) (windupIsFinished : bool) : M bool :=
  if negb windupIsFinished then
    timeout <- setTimeout AdvanceCallback (advanceDelay windup) ;;
    writeRef timeout ;;
    ret true
  else ret false.

Definition windupEffectCleanup : M unit :=
  current <- readRef ;;
  whenSome current clearTimeout.

(** *** The timeout closures *)

Definition runCallback (cb : TimerCallback) : M unit :=
  match cb with
  | AdvanceCallback => dispatch Next
  | FinishCallback options =>
      whenSome (onFinished options) (fun f => observe (OnFinished f)) ;;
      dispatch Finish
  end.

(** A timeout that is still pending becomes due. *)
Definition fire (h : nat) : M unit :=
  cb <- takeTimer h ;;
  whenSome cb runCallback.

(** *** One render of the hook and the commit of its effects *)

Definition optBoolEqb (a b : option bool) : bool :=
  match a, b with
  | Some x, Some y => Bool.eqb x y
  | None, None => true
  | _, _ => false
  end.

(** Dependency arrays of the five effects. *)
Definition sameDeps1 (r : Render) (props : Props) : bool :=
  Object_is (windupInit (renderProps r)) (windupInit props).

Definition sameDeps2 (r : Render) (props : Props) : bool :=
  optBoolEqb (skipped (options (renderProps r))) (skipped (options props)).

Definition sameDeps3 (r : Render) (st : WindupReducerState) : bool :=
  Object_is (windup (renderState r)) (windup st).

Definition sameDeps4 (r : Render) (props : Props) (st : WindupReducerState) : bool :=
  Bool.eqb (didFinishOnce (renderState r)) (didFinishOnce st)
  && Bool.eqb (isFinished (windup (renderState r))) (isFinished (windup st))
  && sameObject (identity (options (renderProps r))) (identity (options props)).

Definition sameDeps5 (r : Render) (st : WindupReducerState) : bool :=
  Object_is (windup (renderState r)) (windup st)
  && Bool.eqb (isFinished (windup (renderState r))) (isFinished (windup st)).

(** An effect runs on mount and whenever its dependencies changed. *)
Definition changed (prev : option Render) (same : Render -> bool) : bool :=
  match prev with
  | None => true
  | Some r => negb (same r)
  end.

(** Cleanups of the effects that are about to run again, then the effects
    themselves, both in declaration order. *)
Definition commitEffects (props : Props) (c : Component) : M (option nat * bool) :=
  let st := state c in
  let windupIsFinished := isFinished (windup st) in
  let prev := lastRender c in
  let run1 := changed prev (fun r => sameDeps1 r props) in
  let run2 := changed prev (fun r => sameDeps2 r props) in
  let run3 := changed prev (fun r => sameDeps3 r st) in
  let run4 := changed prev (fun r => sameDeps4 r props st) in
  let run5 := changed prev (fun r => sameDeps5 r st) in
  when run4 (whenSome (finishedCleanup c) clearTimeout) ;;
  when (run5 && windupCleanup c) windupEffectCleanup ;;
  when run1 (replaceEffect (windupInit props)) ;;
  when run2 (skippedEffect (options props)) ;;
  when run3 (onCharEffect (windup st)) ;;
  cleanup4 <- (if run4
               then onFinishedEffect (didFinishOnce st) windupIsFinished (options props)
               else ret (finishedCleanup c)) ;;
  cleanup5 <- (if run5
               then windupEffect (windup st) windupIsFinished
               else ret (windupCleanup c)) ;;
  ret (cleanup4, cleanup5).

Definition useWindup (props : Props) (c : Component) : Component :=
  let (cleanups, w) := commitEffects props c (world c) in
  {| state := state c;
     lastRender := Some {| renderProps := props; renderState := state c |};
     finishedCleanup := fst cleanups;
     windupCleanup := snd cleanups;
     world := w |}.

(** The dispatched actions go through the reducer in order. *)
Definition reduceQueue (c : Component) : Component :=
  {| state := fold_left windupReducer (queue (world c)) (state c);
     lastRender := lastRender c;
     finishedCleanup := finishedCleanup c;
     windupCleanup := windupCleanup c;
     world := clearQueue (world c) |}.

(** One render: the pending actions are reduced, the hook runs, its
    effects are committed. *)
Definition render (props : Props) (c : Component) : Component :=
  useWindup props (reduceQueue c).

(** Render, and render again while the effects dispatched. *)
Fixpoint settle (fuel : nat) (props : Props) (c : Component) : Component :=
  match fuel with
  | O => c
  | S fuel' =>
      let c' := render props c in
      match queue (world c') with
      | [] => c'
      | _ :: _ => settle fuel' props c'
      end
  end.

Definition renderBudget : nat := 50.

(** *** Events *)

Inductive Event : Type :=
| TimerFires (handle : nat)      (* a pending timeout becomes due *)
| Skip                           (* the caller calls skip() *)
| RewindRequest                  (* the caller calls rewind() *)
| Rerender (props : Props).      (* the caller renders the hook, with these arguments *)

Definition onWorld (m : M unit) (c : Component) : Component :=
  {| state := state c;
     lastRender := lastRender c;
     finishedCleanup := finishedCleanup c;
     windupCleanup := windupCleanup c;
     world := exec m (world c) |}.

(** A handler that dispatched makes the component render again, with the
    arguments of the last render. *)
Definition handle (r : Render) (m : M unit) (c : Component) : Component :=
  let c' := onWorld m c in
  match queue (world c') with
  | [] => c'
  | _ :: _ => settle renderBudget (renderProps r) c'
  end.

Definition step (e : Event) (c : Component) : Component :=
  match lastRender c with
  | None => c
  | Some r =>
      match e with
      | TimerFires h => handle r (fire h) c
      | Skip => handle r (skip (isFinished (windup (renderState r)))) c
      | RewindRequest => handle r rewindRequest c
      | Rerender props => settle renderBudget props c
      end
  end.

(** The component before its first render: [useReducer] has run
    [initWindupState] on the first argument, [useRef] holds [null]. *)
Definition unmounted (props : Props) : Component :=
  {| state := initWindupState (windupInit props);
     lastRender := None;
     finishedCleanup := None;
     windupCleanup := false;
     world := emptyWorld |}.

Definition mount (props : Props) : Component :=
  settle renderBudget props (unmounted props).

Definition run (es : list Event) (c : Component) : Component :=
  fold_left (fun c e => step e c) es c.

Inductive Reachable : Component -> Prop :=
| reach_mount : forall props, Reachable (mount props)
| reach_step : forall e c, Reachable c -> Reachable (step e c).

(** *** Reading a component *)

Definition isAdvance (t : nat * TimerCallback) : bool :=
  match snd t with AdvanceCallback => true | FinishCallback _ => false end.

Definition isFinish (t : nat * TimerCallback) : bool :=
  negb (isAdvance t).

Definition advanceTimers (c : Component) : list (nat * TimerCallback) :=
  filter isAdvance (timers (world c)).

Definition finishTimers (c : Component) : list (nat * TimerCallback) :=
  filter isFinish (timers (world c)).

Fixpoint completions (t : list Observation) : list CallbackName :=
  match t with
  | [] => []
  | OnFinished f :: t' => f :: completions t'
  | _ :: t' => completions t'
  end.

Fixpoint reveals (t : list Observation) : list (CallbackName * string) :=
  match t with
  | [] => []
  | OnChar f ch :: t' => (f, ch) :: reveals t'
  | _ :: t' => reveals t'
  end.

Fixpoint advanceDelays (t : list Observation) : list number :=
  match t with
  | [] => []
  | SetTimeout _ AdvanceCallback d :: t' => d :: advanceDelays t'
  | _ :: t' => advanceDelays t'
  end.

Fixpoint timerOps (t : list Observation) : list Observation :=
  match t with
  | [] => []
  | SetTimeout h cb d :: t' => SetTimeout h cb d :: timerOps t'
  | ClearTimeout h :: t' => ClearTimeout h :: timerOps t'
  | _ :: t' => timerOps t'
  end.

End Hook.

(** ** The progression model of the specification *)

Module SpecModel.

(** Modelled from the spec: the sequence type of "../Windup", which is not
    part of the sources at hand.  "An ordered, immutable collection of
    typed elements, partitioned into one or more metadata-bearing
    contexts; each context may carry an element-revealed callback and/or a
    pace function." *)
Record Partition : Type := mkPartition {
  metadata : HookMetadata;
  elements : list string
}.

Definition Sequence : Type := list Partition.

Definition contents (s : Sequence) : list string := flat_map elements s.

Definition length (s : Sequence) : nat := List.length (contents s).

(** Modelled from the spec: the progression state "{ sequence, cursor }"
    of "../Windup".  [root] and [version] stand for the identity of the
    JavaScript object: [root] is the sequence object the caller built,
    [version] counts the transitions that "return a new state". *)
Record Progression : Type := mkProgression {
  sequence : Sequence;
  cursor : nat;
  root : nat;
  version : nat
}.

Definition Object_is (a b : Progression) : bool :=
  Nat.eqb (root a) (root b) && Nat.eqb (version a) (version b).

(** Modelled from the spec: "isFinished(state): cursor == length(sequence)". *)
Definition isFinished (p : Progression) : bool :=
  Nat.eqb (cursor p) (length (sequence p)).

(** Modelled from the spec: "next(state): if not finished, returns a new
    state with cursor = cursor + 1; if finished, returns state unchanged". *)
Definition next (p : Progression) : Progression :=
  if isFinished p then p
  else {| sequence := sequence p; cursor := cursor p + 1;
          root := root p; version := S (version p) |}.

(** Modelled from the spec: "rewind(state): returns a new state with the
    same sequence and cursor = 0". *)
Definition rewind (p : Progression) : Progression :=
  {| sequence := sequence p; cursor := 0;
     root := root p; version := S (version p) |}.

(** Modelled from the spec: "fastForward(state): returns a new state with
    cursor = length(sequence), regardless of current cursor". *)
Definition fastForward (p : Progression) : Progression :=
  {| sequence := sequence p; cursor := length (sequence p);
     root := root p; version := S (version p) |}.

(** Modelled from the spec: "lastPlayedElement(state): element at index
    cursor - 1, or absent if cursor == 0". *)
Definition lastPlayedElement (p : Progression) : option string :=
  match cursor p with
  | O => None
  | S i => nth_error (contents (sequence p)) i
  end.

(** Modelled from the spec: "nextElement(state): element at index cursor,
    or absent if finished". *)
Definition nextElement (p : Progression) : option string :=
  nth_error (contents (sequence p)) (cursor p).

(** The context an element of the sequence lies in. *)
Fixpoint partitionAt (s : Sequence) (i : nat) : option Partition :=
  match s with
  | [] => None
  | c :: s' =>
      if i <? List.length (elements c) then Some c
      else partitionAt s' (i - List.length (elements c))
  end.

(** Modelled from the spec: [paceFromWindup] of "./Pace".  "paceFor(state)
    inspects the context(s) relevant to the state's current cursor
    position and returns an optional pace function": the context of the
    element just played. *)
Definition paceFromWindup (p : Progression) : option PaceFn :=
  match partitionAt (sequence p) (cursor p - 1) with
  | Some c => pace (metadata c)
  | None => None
  end.

(** Modelled from the spec: [defaultGetPace] of "./Pace", "a process-wide
    default pace function"; "default pace 50 time-units per element". *)
Definition defaultGetPace : PaceFn := fun _ _ => Num 50.

(** Modelled from the spec: [onCharsFromWindup] of "./OnChar": "the
    element-revealed callback(s) associated with" the element just
    played. *)
Definition onCharsFromWindup (p : Progression) : list CallbackName :=
  match cursor p with
  | O => []
  | S i =>
      match partitionAt (sequence p) i with
      | Some c =>
          match onChar (metadata c) with
          | Some f => [f]
          | None => []
          end
      | None => []
      end
  end.

Lemma Object_is_refl : forall p, Object_is p p = true.
Proof.
  intros p. unfold Object_is. now rewrite !Nat.eqb_refl.
Qed.

#[export] Instance windupModule : WindupModule :=
  @Build_WindupModule Progression Object_is Object_is_refl
    isFinished lastPlayedElement nextElement next fastForward rewind
    paceFromWindup defaultGetPace onCharsFromWindup.

(** A sequence with a single context. *)
Definition fromChars (md : HookMetadata) (chars : list string) (id : nat) : Progression :=
  {| sequence := [ {| metadata := md; elements := chars |} ];
     cursor := 0; root := id; version := 0 |}.

End SpecModel.

(** ** Invariants of the driver *)

Section Invariants.
Context {WM : WindupModule}.

(** The timer table against the two cleanups the component holds:
    [fc] is the timeout the onFinished cleanup will clear, [wc] tells
    whether the windup effect left its cleanup; advance timers are not
    older than [floor]. *)
Record TimersOk (floor : nat) (fc : option nat) (wc : bool) (w : World) : Prop :=
  mkTimersOk {
    ok_nodup : NoDup (map fst (timers w));
    ok_bound : forall h cb, In (h, cb) (timers w) -> h < nextHandle w;
    ok_ref : forall h, timeoutRef w = Some h -> h < nextHandle w;
    ok_fc : forall h, fc = Some h -> h < nextHandle w /\ timeoutRef w <> Some h;
    ok_adv : forall h, In (h, AdvanceCallback) (timers w) ->
               timeoutRef w = Some h /\ wc = true /\ floor <= h;
    ok_fin : forall h o, In (h, FinishCallback o) (timers w) -> fc = Some h
  }.

(** The timeout of the onFinished cleanup is still pending. *)
Definition FinishLive (fc : option nat) (w : World) : Prop :=
  forall h, fc = Some h -> exists o, In (h, FinishCallback o) (timers w).

(** The onFinished effect of render [r] set a timeout exactly when the
    completion was due. *)
Definition finishDue (st : WindupReducerState) : bool :=
  negb (didFinishOnce st) && isFinished (windup st).

Definition CleanupMatches (fc : option nat) (r : option Render) : Prop :=
  match r with
  | None => fc = None
  | Some r => (exists h, fc = Some h) <-> finishDue (renderState r) = true
  end.

(** The windup effect of render [r] left its cleanup exactly when the
    windup was not finished. *)
Definition WindupCleanupMatches (wc : bool) (r : option Render) : Prop :=
  match r with
  | None => wc = false
  | Some r => wc = negb (isFinished (windup (renderState r)))
  end.

(** Holds all along an event, also between the handler and the render. *)
Record Consistent (floor : nat) (c : Component) : Prop := mkConsistent {
  cons_timers : TimersOk floor (finishedCleanup c) (windupCleanup c) (world c);
  cons_cleanup : CleanupMatches (finishedCleanup c) (lastRender c);
  cons_windup : WindupCleanupMatches (windupCleanup c) (lastRender c);
  cons_live : FinishLive (finishedCleanup c) (world c) \/ queue (world c) = [Finish]
}.

(** Holds between events. *)
Record Quiescent (c : Component) : Prop := mkQuiescent {
  q_cons : Consistent 0 c;
  q_live : FinishLive (finishedCleanup c) (world c);
  q_queue : queue (world c) = [];
  q_render : exists props,
    lastRender c = Some {| renderProps := props; renderState := state c |}
}.



Definition optionToList {A} (o : option A) : list A :=
  match o with Some a => [a] | None => [] end.

(** What the onChar effect calls for a windup. *)
Definition onCharCalls (w : Windup) : list (CallbackName * string) :=
  match lastPlayedElement w with
  | Some el =>
      if truthy (Some el) then map (fun f => (f, el)) (onCharsFromWindup w) else []
  | None => []
  end.

(** What a render establishes. *)
Record Rendered (floor : nat) (props : Props) (c : Component) : Prop := mkRendered {
  rd_cons : Consistent floor c;
  rd_live : FinishLive (finishedCleanup c) (world c);
  rd_render : lastRender c = Some {| renderProps := props; renderState := state c |}
}.

(** An event is a handler or a render with new arguments, followed by a
    render if something was dispatched. *)
Definition firstPhase (e : Event) (r : Render) (c : Component) : Component * Props :=
  match e with
  | TimerFires h => (onWorld (fire h) c, renderProps r)
  | Skip => (onWorld (skip (isFinished (windup (renderState r)))) c, renderProps r)
  | RewindRequest => (onWorld rewindRequest c, renderProps r)
  | Rerender props => (render props c, props)
  end.

(** What the timeout closure of an event calls. *)
Definition firedCompletions (e : Event) (c : Component) : list CallbackName :=
  match e with
  | TimerFires h =>
      match findTimer h (timers (world c)) with
      | Some (FinishCallback o) => optionToList (onFinished o)
      | _ => []
      end
  | _ => []
  end.







(** Weakest precondition of a computation in the world monad. *)
Definition wp {A} (m : M A) (Q : A -> World -> Prop) (w : World) : Prop :=
  Q (fst (m w)) (snd (m w)).

(** The invariant carried through the effects of one commit; [n0] is the
    handle counter when the commit started. *)
Definition Good (floor n0 : nat) (fc : option nat) (wc : bool) (w : World) : Prop :=
  TimersOk floor fc wc w /\ FinishLive fc w /\ n0 <= nextHandle w.

(** Steps that leave the timers, the ref and the handle counter alone. *)
Definition sameTimers (w w' : World) : Prop :=
  timers w' = timers w /\ timeoutRef w' = timeoutRef w /\ nextHandle w' = nextHandle w.

(** What a computation added to the queue and to the trace. *)
Record Output : Type := mkOutput {
  out_actions : list WindupReducerAction;
  out_completions : list CallbackName;
  out_reveals : list (CallbackName * string);
  out_delays : list number
}.

Definition noOutput : Output := mkOutput [] [] [] [].

Definition plus (a b : Output) : Output :=
  mkOutput (out_actions a ++ out_actions b)
           (out_completions a ++ out_completions b)
           (out_reveals a ++ out_reveals b)
           (out_delays a ++ out_delays b).

Definition Adds (w : World) (o : Output) (w' : World) : Prop :=
  queue w' = queue w ++ out_actions o
  /\ completions (trace w') = completions (trace w) ++ out_completions o
  /\ reveals (trace w') = reveals (trace w) ++ out_reveals o
  /\ advanceDelays (trace w') = advanceDelays (trace w) ++ out_delays o.

Definition skippedActions (o : Options) : list WindupReducerAction :=
  match skipped o with
  | Some true => [FastForward]
  | Some false => [Rewind]
  | None => []
  end.

Definition windupDelays (wd : Windup) : list number :=
  if isFinished wd then [] else [advanceDelay wd].

(** What an event dispatches before the hook renders again. *)
Definition firstQueue (e : Event) (r : Render) (c : Component)
    : list WindupReducerAction :=
  match e with
  | TimerFires h =>
      match findTimer h (timers (world c)) with
      | Some AdvanceCallback => [Next]
      | Some (FinishCallback _) => [Finish]
      | None => []
      end
  | Skip => if isFinished (windup (renderState r)) then [] else [FastForward]
  | RewindRequest => [Rewind]
  | Rerender props =>
      (if sameDeps1 r props then [] else [Replace (windupInit props)])
      ++ (if sameDeps2 r props then [] else skippedActions (options props))
  end.

(** What one commit dispatches, reveals and schedules. *)
Definition commitOutput (props : Props) (c : Component) : Output :=
  let prev := lastRender c in
  let st := state c in
  mkOutput
    ((if changed prev (fun r => sameDeps1 r props)
      then [Replace (windupInit props)] else [])
     ++ (if changed prev (fun r => sameDeps2 r props)
         then skippedActions (options props) else []))
    []
    (if changed prev (fun r => sameDeps3 r st) then onCharCalls (windup st) else [])
    (if changed prev (fun r => sameDeps5 r st) then windupDelays (windup st) else []).

End Invariants.

(** ** Scenarios on the specification's model *)

Module Scenarios.
Import SpecModel.

Definition chime : HookMetadata := {| onChar := Some 7; pace := None |}.

Definition backwards : HookMetadata :=
  {| onChar := None; pace := Some (fun _ _ => Num (-5)) |}.

Definition keep (sk : option bool) : Options :=
  {| onFinished := Some 9; skipped := sk; identity := Stable 0 |}.

(** Five elements, one context with an onChar callback. *)
Definition hello : Windup :=
  fromChars chime ["a"; "b"; "c"; "d"; "e"]%string 0.

Definition helloProps : Props := {| windupInit := hello; options := keep None |}.

(** Two elements, with a pace function that returns a negative delay. *)
Definition ab : Windup := fromChars backwards ["a"; "b"]%string 1.

Definition abProps (sk : option bool) : Props :=
  {| windupInit := ab; options := keep sk |}.

(** The empty sequence. *)
Definition nothing : Windup := fromChars chime [] 2.

Definition nothingProps : Props := {| windupInit := nothing; options := keep None |}.

(** An empty string as first element, played. *)
Definition gap : Windup := next (fromChars chime [EmptyString; "b"%string] 3).

(** The same options as [keep None], written as an object literal. *)
Definition inlineOptions : Options :=
  {| onFinished := Some 9; skipped := None; identity := FreshEachRender |}.

(** [hello] skipped to its end, the completion not yet delivered. *)
Definition helloSkipped : Component := step Skip (mount helloProps).

End Scenarios.

(** * Proofs *)

Unset Implicit Arguments.

Section MonadFacts.
Context {WM : WindupModule}.

Lemma wp_ret : forall A (a : A) (Q : A -> World -> Prop) w,
  Q a w -> wp (ret a) Q w.
Proof. intros. exact H. Qed.

Lemma wp_bind : forall A B (m : M A) (k : A -> M B) (Q : B -> World -> Prop) w,
  wp m (fun a w' => wp (k a) Q w') w -> wp (bind m k) Q w.
Proof.
  unfold wp, bind. intros A B m k Q w H. destruct (m w) as [a w']. exact H.
Qed.

Lemma wp_mono : forall A (m : M A) (Q Q' : A -> World -> Prop) w,
  wp m Q w -> (forall a w', Q a w' -> Q' a w') -> wp m Q' w.
Proof. unfold wp. intros. auto. Qed.

Lemma wp_when : forall (b : bool) (m : M unit) (Q : unit -> World -> Prop) w,
  (b = true -> wp m Q w) -> (b = false -> Q tt w) -> wp (when b m) Q w.
Proof. intros [] m Q w Ht Hf; [apply Ht | apply Hf]; reflexivity. Qed.

Lemma wp_whenSome : forall A (o : option A) (k : A -> M unit) (Q : unit -> World -> Prop) w,
  (forall a, o = Some a -> wp (k a) Q w) -> (o = None -> Q tt w) ->
  wp (whenSome o k) Q w.
Proof. intros A [a|] k Q w Hs Hn; [apply Hs | apply Hn]; reflexivity. Qed.

(** Timer table *)
Lemma in_dropTimer : forall h h' cb (ts : list (nat * TimerCallback)),
  In (h', cb) (dropTimer h ts) <-> In (h', cb) ts /\ h' <> h.
Proof.
  intros. unfold dropTimer. rewrite filter_In. simpl.
  rewrite negb_true_iff, Nat.eqb_neq. tauto.
Qed.

Lemma nodup_dropTimer : forall h (ts : list (nat * TimerCallback)),
  NoDup (map fst ts) -> NoDup (map fst (dropTimer h ts)).
Proof.
  intros h ts. induction ts as [|[h' cb] ts IH]; simpl; intros Hnd.
  - constructor.
  - inversion Hnd as [|x l Hx Hl]; subst.
    destruct (Nat.eqb h' h); simpl; auto.
    constructor; auto.
    intros Hin. apply Hx. apply in_map_iff in Hin.
    destruct Hin as [[h2 cb2] [Heq Hin]]. simpl in Heq. subst h2.
    apply in_dropTimer in Hin. apply in_map_iff. exists (h', cb2). tauto.
Qed.

Lemma findTimer_In : forall h cb (ts : list (nat * TimerCallback)),
  findTimer h ts = Some cb -> In (h, cb) ts.
Proof.
  intros h cb ts. induction ts as [|[h' cb'] ts IH]; simpl; intros H.
  - discriminate.
  - destruct (Nat.eqb_spec h' h).
    + inversion H; subst. now left.
    + right. auto.
Qed.

Lemma In_findTimer : forall h cb (ts : list (nat * TimerCallback)),
  NoDup (map fst ts) -> In (h, cb) ts -> findTimer h ts = Some cb.
Proof.
  intros h cb ts. induction ts as [|[h' cb'] ts IH]; simpl; intros Hnd Hin.
  - contradiction.
  - inversion Hnd as [|x l Hx Hl]; subst.
    destruct Hin as [Heq | Hin].
    + inversion Heq; subst. now rewrite Nat.eqb_refl.
    + destruct (Nat.eqb_spec h' h).
      * subst. exfalso. apply Hx. apply in_map_iff. exists (h, cb). auto.
      * auto.
Qed.

Lemma same_handle_short : forall h (ts : list (nat * TimerCallback)),
  NoDup (map fst ts) -> (forall t, In t ts -> fst t = h) -> List.length ts <= 1.
Proof.
  intros h [|t1 [|t2 ts]] Hnd Hall; simpl; try lia.
  exfalso. inversion Hnd as [|x l Hx Hl]; subst. apply Hx.
  simpl. left. rewrite (Hall t1), (Hall t2); simpl; auto.
Qed.

End MonadFacts.

Section Good.
Context {WM : WindupModule}.

Ltac good_split := split; [ | split ].

Lemma TimersOk_no_advance : forall floor floor' fc wc w,
  TimersOk floor fc false w -> TimersOk floor' fc wc w.
Proof.
  intros floor floor' fc wc w [Hnd Hb Hr Hfc Hadv Hfin].
  constructor; auto.
  intros h Hin. destruct (Hadv h Hin) as (_ & Hwc & _). discriminate.
Qed.

Lemma Good_no_advance : forall floor floor' n0 fc wc w,
  Good floor n0 fc false w -> Good floor' n0 fc wc w.
Proof.
  intros floor floor' n0 fc wc w (Hok & Hlive & Hn).
  good_split; auto. eapply TimersOk_no_advance; eauto.
Qed.

Lemma TimersOk_clear_finish : forall floor wc w h,
  TimersOk floor (Some h) wc w -> TimersOk floor None wc (exec (clearTimeout h) w).
Proof.
  intros floor wc w h [Hnd Hb Hr Hfc Hadv Hfin].
  constructor; simpl; auto.
  - now apply nodup_dropTimer.
  - intros h' cb Hin. apply in_dropTimer in Hin. apply (Hb h' cb). tauto.
  - discriminate.
  - intros h' Hin. apply in_dropTimer in Hin. apply Hadv. tauto.
  - intros h' o Hin. apply in_dropTimer in Hin. destruct Hin as [Hin Hne].
    specialize (Hfin h' o Hin). congruence.
Qed.

Lemma TimersOk_clear_ref : forall floor floor' fc wc w h,
  TimersOk floor fc wc w -> timeoutRef w = Some h ->
  TimersOk floor' fc false (exec (clearTimeout h) w).
Proof.
  intros floor floor' fc wc w h [Hnd Hb Hr Hfc Hadv Hfin] Href.
  constructor; simpl; auto.
  - now apply nodup_dropTimer.
  - intros h' cb Hin. apply in_dropTimer in Hin. apply (Hb h' cb). tauto.
  - intros h' Hin. apply in_dropTimer in Hin. destruct Hin as [Hin Hne].
    destruct (Hadv h' Hin) as (Hr' & _). congruence.
  - intros h' o Hin. apply in_dropTimer in Hin. apply (Hfin h' o). tauto.
Qed.

Lemma TimersOk_no_ref : forall floor floor' fc wc w,
  TimersOk floor fc wc w -> timeoutRef w = None -> TimersOk floor' fc false w.
Proof.
  intros floor floor' fc wc w [Hnd Hb Hr Hfc Hadv Hfin] Href.
  constructor; auto.
  intros h' Hin. destruct (Hadv h' Hin) as (Hr' & _). congruence.
Qed.

Lemma FinishLive_clear_ref : forall floor fc wc w h,
  TimersOk floor fc wc w -> FinishLive fc w -> timeoutRef w = Some h ->
  FinishLive fc (exec (clearTimeout h) w).
Proof.
  intros floor fc wc w h Hok Hlive Href h' Hfc.
  destruct (Hlive h' Hfc) as [o Hin]. exists o. simpl.
  apply in_dropTimer. split; auto.
  destruct (ok_fc Hok Hfc) as (_ & Hne). congruence.
Qed.

(** Clearing [timeoutRef.current], as [skip], [rewind], the skipped effect
    and the windup effect's cleanup do. *)
Lemma Good_clear_ref : forall floor floor' n0 fc wc w,
  Good floor n0 fc wc w ->
  wp (bind readRef (fun current => whenSome current clearTimeout))
     (fun _ w' => Good floor' n0 fc false w' /\ timeoutRef w' = timeoutRef w) w.
Proof.
  intros floor floor' n0 fc wc w (Hok & Hlive & Hn).
  unfold wp, bind, readRef. simpl.
  destruct (timeoutRef w) as [h|] eqn:Href; simpl.
  - split; [good_split|]; auto.
    + eapply TimersOk_clear_ref; eauto.
    + eapply FinishLive_clear_ref; eauto.
  - split; [good_split|]; auto. eapply TimersOk_no_ref; eauto.
Qed.

Lemma Good_clear_finish : forall floor n0 fc wc w,
  TimersOk floor fc wc w -> n0 <= nextHandle w ->
  wp (whenSome fc clearTimeout) (fun _ w' => Good floor n0 None wc w') w.
Proof.
  intros floor n0 fc wc w Hok Hn. unfold wp.
  destruct fc as [h|]; simpl.
  - good_split; auto.
    + eapply TimersOk_clear_finish; eauto.
    + intros h' Hh. discriminate.
  - good_split; auto. intros h' Hh. discriminate.
Qed.

Lemma Good_sameTimers : forall floor n0 fc wc w w',
  sameTimers w w' -> Good floor n0 fc wc w -> Good floor n0 fc wc w'.
Proof.
  intros floor n0 fc wc w w' (Ht & Hr & Hn) ([Hnd Hb Hrf Hfc Hadv Hfin] & Hlive & Hle).
  unfold Good, FinishLive. rewrite Ht, Hn. good_split; auto.
  constructor; rewrite ?Ht, ?Hr, ?Hn; auto.
Qed.

Lemma sameTimers_dispatch : forall a w, sameTimers w (exec (dispatch a) w).
Proof. intros. repeat split. Qed.

Lemma forEach_observe : forall (A : Type) (f : A -> Observation) (l : list A) w,
  forEach l (fun a => observe (f a)) w =
  (tt, {| timeoutRef := timeoutRef w; timers := timers w;
          nextHandle := nextHandle w; queue := queue w;
          trace := trace w ++ map f l |}).
Proof.
  intros A f l. induction l as [|a l IH]; intros w; simpl.
  - rewrite app_nil_r. now destruct w.
  - unfold bind. simpl. rewrite IH. simpl. now rewrite <- app_assoc.
Qed.

Lemma onCharEffect_world : forall wd w,
  onCharEffect wd w =
  (tt, {| timeoutRef := timeoutRef w; timers := timers w;
          nextHandle := nextHandle w; queue := queue w;
          trace := trace w ++ map (fun fe => OnChar (fst fe) (snd fe)) (onCharCalls wd) |}).
Proof.
  intros wd w. unfold onCharEffect, onCharCalls.
  destruct (lastPlayedElement wd) as [el|].
  - destruct (truthy (Some el)).
    + destruct (onCharsFromWindup wd) as [|f fs] eqn:Hfs.
      * simpl. rewrite app_nil_r. now destruct w.
      * rewrite <- Hfs. replace (0 <? List.length (onCharsFromWindup wd)) with true.
        2:{ rewrite Hfs. reflexivity. }
        simpl. rewrite forEach_observe. rewrite map_map. reflexivity.
    + rewrite andb_false_r. simpl. unfold ret. rewrite app_nil_r. now destruct w.
  - rewrite andb_false_r. simpl. unfold ret. rewrite app_nil_r. now destruct w.
Qed.

Lemma sameTimers_onChar : forall wd w, sameTimers w (exec (onCharEffect wd) w).
Proof. intros. unfold exec. rewrite onCharEffect_world. repeat split. Qed.

End Good.

Section Effects.
Context {WM : WindupModule}.

Ltac good_split := split; [ | split ].

Lemma Good_dispatch : forall floor n0 fc wc a w,
  Good floor n0 fc wc w -> wp (dispatch a) (fun _ w' => Good floor n0 fc wc w') w.
Proof.
  intros. unfold wp. eapply Good_sameTimers; eauto. apply sameTimers_dispatch.
Qed.

Lemma Good_when_dispatch : forall floor n0 fc wc b a w,
  Good floor n0 fc wc w ->
  wp (when b (dispatch a)) (fun _ w' => Good floor n0 fc wc w') w.
Proof.
  intros. apply wp_when; intros _; auto. now apply Good_dispatch.
Qed.

Lemma Good_skipped : forall floor floor' n0 fc wc o w,
  Good floor n0 fc wc w ->
  wp (skippedEffect o) (fun _ w' => Good floor' n0 fc wc w') w.
Proof.
  intros floor floor' n0 fc wc o w HG. unfold skippedEffect.
  apply wp_bind.
  pose proof (Good_clear_ref floor floor' n0 fc wc w HG) as Hc.
  unfold wp in Hc |- *. unfold bind in Hc |- *. simpl in Hc |- *.
  destruct Hc as [Hc _].
  apply (Good_no_advance floor' floor' n0 fc wc) in Hc.
  set (w1 := snd (whenSome (timeoutRef w) clearTimeout w)) in *.
  destruct (whenSome (timeoutRef w) clearTimeout w) as [[] w1'] eqn:E.
  simpl in w1. subst w1.
  pose proof (Good_when_dispatch floor' n0 fc wc
                (match skipped o with Some true => true | _ => false end)
                FastForward w1' Hc) as H1.
  unfold wp in H1.
  destruct (when (match skipped o with Some true => true | _ => false end)
              (dispatch FastForward) w1') as [[] w2] eqn:E2.
  simpl in H1. simpl.
  apply (Good_when_dispatch floor' n0 fc wc _ Rewind w2 H1).
Qed.

Lemma Good_onFinished : forall floor n0 wc d f o w,
  Good floor n0 None wc w ->
  wp (onFinishedEffect d f o)
     (fun fc' w' => Good floor n0 fc' wc w' /\
                    ((exists h, fc' = Some h) <-> negb d && f = true)) w.
Proof.
  intros floor n0 wc d f o w ([Hnd Hb Hr Hfc Hadv Hfin] & Hlive & Hn).
  unfold wp, onFinishedEffect.
  destruct (negb d && f); simpl.
  - split; [good_split|].
    + constructor; simpl.
      * rewrite map_app. simpl. apply NoDup_app; auto.
        -- constructor; [intros []|constructor].
        -- intros x Hx [Hx'|[]]. subst x.
           apply in_map_iff in Hx. destruct Hx as [[h cb] [Heq Hin]].
           simpl in Heq. subst h. apply Hb in Hin. lia.
      * intros h cb Hin. apply in_app_or in Hin. destruct Hin as [Hin|[Hin|[]]].
        -- apply Hb in Hin. lia.
        -- inversion Hin; subst. lia.
      * intros h Hh. apply Hr in Hh. lia.
      * intros h Hh. inversion Hh; subst. split; [lia|].
        intros Hc. apply Hr in Hc. lia.
      * intros h Hin. apply in_app_or in Hin. destruct Hin as [Hin|[Hin|[]]].
        -- auto.
        -- inversion Hin.
      * intros h o' Hin. apply in_app_or in Hin. destruct Hin as [Hin|[Hin|[]]].
        -- apply Hfin in Hin. discriminate.
        -- inversion Hin; subst. reflexivity.
    + intros h Hh. inversion Hh; subst. exists o. simpl.
      apply in_or_app. right. now left.
    + simpl. lia.
    + split; auto. intros _. eexists; reflexivity.
  - split; [good_split|]; auto.
    + constructor; auto.
    + split; [intros [h Hh]|]; discriminate.
Qed.

Lemma Good_windup : forall floor n0 fc wd f w,
  Good floor n0 fc false w ->
  wp (windupEffect wd f)
     (fun wc' w' => Good n0 n0 fc wc' w' /\ wc' = negb f
                    /\ (f = false -> In (nextHandle w, AdvanceCallback) (timers w'))) w.
Proof.
  intros floor n0 fc wd f w ([Hnd Hb Hr Hfc Hadv Hfin] & Hlive & Hn).
  unfold wp, windupEffect.
  destruct f; simpl.
  2:{ split; [|split; [reflexivity|intros _; apply in_or_app; right; now left]].
    good_split.
    + constructor; simpl.
      * rewrite map_app. simpl. apply NoDup_app; auto.
        -- constructor; [intros []|constructor].
        -- intros x Hx [Hx'|[]]. subst x.
           apply in_map_iff in Hx. destruct Hx as [[h cb] [Heq Hin]].
           simpl in Heq. subst h. apply Hb in Hin. lia.
      * intros h cb Hin. apply in_app_or in Hin. destruct Hin as [Hin|[Hin|[]]].
        -- apply Hb in Hin. lia.
        -- inversion Hin; subst. lia.
      * intros h Hh. inversion Hh; subst. lia.
      * intros h Hh. destruct (Hfc h Hh) as [Hlt _]. split; [lia|].
        intros Hc. inversion Hc. lia.
      * intros h Hin. apply in_app_or in Hin. destruct Hin as [Hin|[Hin|[]]].
        -- destruct (Hadv h Hin) as (_ & Hc & _). discriminate.
        -- inversion Hin; subst. auto.
      * intros h o' Hin. apply in_app_or in Hin. destruct Hin as [Hin|[Hin|[]]].
        -- eapply Hfin; eauto.
        -- inversion Hin.
    + intros h Hh. destruct (Hlive h Hh) as [o Hin]. exists o. simpl.
      apply in_or_app. now left.
    + simpl. lia. }
  split; [|split; [reflexivity|discriminate]]. good_split; auto.
  constructor; auto.
  intros h Hin. destruct (Hadv h Hin) as (_ & Hc & _). discriminate.
Qed.

End Effects.

Section Commit.
Context {WM : WindupModule}.

Ltac good_split := split; [ | split ].

Lemma wp_seq : forall A B (m : M A) (k : A -> M B) (P : A -> World -> Prop)
    (Q : B -> World -> Prop) w,
  wp m P w -> (forall a w', P a w' -> wp (k a) Q w') -> wp (bind m k) Q w.
Proof.
  intros. apply wp_bind. eapply wp_mono; eauto.
Qed.

Lemma Good_cleanup5 : forall floor floor' n0 fc wc w,
  Good floor n0 fc wc w ->
  wp windupEffectCleanup (fun _ w' => Good floor' n0 fc false w') w.
Proof.
  intros. unfold windupEffectCleanup.
  eapply wp_mono; [eapply Good_clear_ref; eauto|].
  intros a w' [H1 _]. exact H1.
Qed.

Lemma Good_onChar : forall floor n0 fc wc wd w,
  Good floor n0 fc wc w ->
  wp (onCharEffect wd) (fun _ w' => Good floor n0 fc wc w') w.
Proof.
  intros. unfold wp. eapply Good_sameTimers; eauto. apply sameTimers_onChar.
Qed.

Lemma changed_false : forall prev same,
  changed prev same = false -> exists r, prev = Some r /\ same r = true.
Proof.
  intros [r|] same H; simpl in H; [|discriminate].
  exists r. split; auto. now apply negb_false_iff.
Qed.

Lemma sameDeps4_finishDue : forall r props st,
  sameDeps4 r props st = true -> finishDue (renderState r) = finishDue st.
Proof.
  intros r props st H. unfold sameDeps4 in H.
  apply andb_true_iff in H. destruct H as [H _].
  apply andb_true_iff in H. destruct H as [H1 H2].
  apply eqb_prop in H1. apply eqb_prop in H2.
  unfold finishDue. now rewrite H1, H2.
Qed.

(** The commit keeps the timer table consistent with the cleanups, and
    when the windup effect runs again no older advance timer survives. *)
Lemma commitEffects_good : forall floor props c,
  TimersOk floor (finishedCleanup c) (windupCleanup c) (world c) ->
  CleanupMatches (finishedCleanup c) (lastRender c) ->
  WindupCleanupMatches (windupCleanup c) (lastRender c) ->
  (changed (lastRender c) (fun r => sameDeps4 r props (state c)) = false ->
   FinishLive (finishedCleanup c) (world c)) ->
  wp (commitEffects props c)
     (fun res w' =>
        Good (if changed (lastRender c) (fun r => sameDeps2 r props)
                 || changed (lastRender c) (fun r => sameDeps5 r (state c))
              then nextHandle (world c) else floor)
             (nextHandle (world c)) (fst res) (snd res) w'
        /\ ((exists h, fst res = Some h) <-> finishDue (state c) = true)
        /\ snd res = negb (isFinished (windup (state c)))
        /\ (changed (lastRender c) (fun r => sameDeps5 r (state c)) = true ->
            isFinished (windup (state c)) = false ->
            exists h, In (h, AdvanceCallback) (timers w')
                      /\ nextHandle (world c) <= h))
     (world c).
Proof.
  intros floor props c Hok Hcm Hwm Hlive.
  unfold commitEffects.
  set (n0 := nextHandle (world c)).
  set (run4 := changed (lastRender c) (fun r => sameDeps4 r props (state c))) in *.
  set (run2 := changed (lastRender c) (fun r => sameDeps2 r props)).
  set (run5 := changed (lastRender c) (fun r => sameDeps5 r (state c))).
  set (floor' := if run5 then n0 else floor).
  set (floor2 := if run2 || run5 then n0 else floor).
  set (fc1 := if run4 then None else finishedCleanup c).
  set (wc1 := if run5 then false else windupCleanup c).
  (* cleanup of the onFinished effect *)
  eapply wp_seq with (P := fun _ w' => Good floor n0 fc1 (windupCleanup c) w').
  { apply wp_when; intros H4; subst fc1; rewrite H4.
    - apply Good_clear_finish; auto.
    - good_split; auto. }
  intros [] w1 G1.
  (* cleanup of the windup effect *)
  eapply wp_seq with (P := fun _ w' => Good floor' n0 fc1 wc1 w').
  { apply wp_when; intros H5.
    - apply andb_true_iff in H5. destruct H5 as [H5 Hwc].
      subst floor' wc1. rewrite H5.
      eapply Good_cleanup5; eauto.
    - subst floor' wc1. destruct run5; auto.
      simpl in H5. rewrite H5 in G1. eapply Good_no_advance; eauto. }
  intros [] w2 G2.
  (* the replace effect *)
  eapply wp_seq with (P := fun _ w' => Good floor' n0 fc1 wc1 w').
  { apply wp_when; intros _; auto. now apply Good_dispatch. }
  intros [] w3 G3.
  (* the skipped effect *)
  eapply wp_seq with (P := fun _ w' => Good floor2 n0 fc1 wc1 w').
  { apply wp_when; intros H2.
    - eapply Good_skipped; eauto.
    - subst floor2. rewrite H2. exact G3. }
  intros [] w4 G4.
  (* the onChar effect *)
  eapply wp_seq with (P := fun _ w' => Good floor2 n0 fc1 wc1 w').
  { apply wp_when; intros _; auto. now apply Good_onChar. }
  intros [] w5 G5.
  (* the onFinished effect *)
  eapply wp_seq with
    (P := fun fc' w' => Good floor2 n0 fc' wc1 w' /\
                        ((exists h, fc' = Some h) <-> finishDue (state c) = true)).
  { destruct run4 eqn:H4; subst fc1.
    - now apply Good_onFinished.
    - apply wp_ret. split; auto.
      apply changed_false in H4. destruct H4 as (r & Hr & Hs).
      rewrite Hr in Hcm. simpl in Hcm.
      rewrite <- (sameDeps4_finishDue _ _ _ Hs). exact Hcm. }
  intros fc' w6 [G6 Hfc'].
  (* the windup effect *)
  eapply wp_seq with
    (P := fun wc' w' => Good floor2 n0 fc' wc' w' /\
                        wc' = negb (isFinished (windup (state c))) /\
                        (run5 = true -> isFinished (windup (state c)) = false ->
                         exists h, In (h, AdvanceCallback) (timers w') /\ n0 <= h)).
  { destruct run5 eqn:H5; subst floor' floor2 wc1; rewrite ?orb_true_r.
    - eapply wp_mono; [eapply Good_windup; eauto|].
      simpl. intros wc' w' (A & B & C). split; [exact A|split; [exact B|]].
      intros _ Hnf. exists (nextHandle w6). split; auto.
      destruct G6 as (_ & _ & Hle). exact Hle.
    - apply wp_ret. split; [|split; [|discriminate]]; auto.
      apply changed_false in H5. destruct H5 as (r & Hr & Hs).
      rewrite Hr in Hwm. simpl in Hwm. rewrite Hwm.
      unfold sameDeps5 in Hs. apply andb_true_iff in Hs. destruct Hs as [_ Hs].
      apply eqb_prop in Hs. now rewrite Hs. }
  intros wc' w7 (G7 & Hwc' & Hadv').
  apply wp_ret. simpl. auto.
Qed.

End Commit.

Section Output.
Context {WM : WindupModule}.

Lemma completions_app : forall t1 t2,
  completions (t1 ++ t2) = completions t1 ++ completions t2.
Proof.
  induction t1 as [|[] t1 IH]; intros; simpl; auto. now rewrite IH.
Qed.

Lemma reveals_app : forall t1 t2,
  reveals (t1 ++ t2) = reveals t1 ++ reveals t2.
Proof.
  induction t1 as [|[] t1 IH]; intros; simpl; auto. now rewrite IH.
Qed.

Lemma advanceDelays_app : forall t1 t2,
  advanceDelays (t1 ++ t2) = advanceDelays t1 ++ advanceDelays t2.
Proof.
  induction t1 as [|[? [] ?| | |] t1 IH]; intros; simpl; auto. now rewrite IH.
Qed.

Lemma reveals_onChar : forall l,
  reveals (map (fun fe : CallbackName * string => OnChar (fst fe) (snd fe)) l) = l.
Proof.
  induction l as [|[f e] l IH]; simpl; auto. now rewrite IH.
Qed.

Lemma completions_onChar : forall l,
  completions (map (fun fe : CallbackName * string => OnChar (fst fe) (snd fe)) l) = [].
Proof. induction l as [|[f e] l IH]; simpl; auto. Qed.

Lemma advanceDelays_onChar : forall l,
  advanceDelays (map (fun fe : CallbackName * string => OnChar (fst fe) (snd fe)) l) = [].
Proof. induction l as [|[f e] l IH]; simpl; auto. Qed.


Lemma Adds_refl : forall w, Adds w noOutput w.
Proof. intros. unfold Adds. simpl. now rewrite !app_nil_r. Qed.

Lemma Adds_trans : forall w1 w2 w3 a b,
  Adds w1 a w2 -> Adds w2 b w3 -> Adds w1 (plus a b) w3.
Proof.
  intros w1 w2 w3 a b (A1 & A2 & A3 & A4) (B1 & B2 & B3 & B4).
  unfold Adds. simpl. rewrite !app_assoc. repeat split; congruence.
Qed.

Lemma Adds_seq : forall A B (m : M A) (k : A -> M B) a b w0 w
    (Q : B -> World -> Prop),
  Adds w0 a w ->
  wp m (fun _ w' => Adds w b w') w ->
  (forall x w', Adds w0 (plus a b) w' -> wp (k x) Q w') ->
  wp (bind m k) Q w.
Proof.
  intros. eapply wp_seq; eauto. simpl. intros x w' Hb. eauto using Adds_trans.
Qed.

Lemma Adds_clearTimeout : forall h w,
  wp (clearTimeout h) (fun _ w' => Adds w noOutput w') w.
Proof.
  intros. unfold wp, Adds. simpl.
  rewrite completions_app, reveals_app, advanceDelays_app. simpl.
  now rewrite !app_nil_r.
Qed.

Lemma Adds_clear_ref : forall w,
  wp (bind readRef (fun current => whenSome current clearTimeout))
     (fun _ w' => Adds w noOutput w') w.
Proof.
  intros. apply wp_bind. unfold wp at 1, readRef. simpl.
  apply wp_whenSome; intros.
  - apply Adds_clearTimeout.
  - apply Adds_refl.
Qed.

Lemma Adds_dispatch : forall a w,
  wp (dispatch a) (fun _ w' => Adds w (mkOutput [a] [] [] []) w') w.
Proof.
  intros. unfold wp, Adds. simpl. now rewrite !app_nil_r.
Qed.


Lemma Adds_skipped : forall o w,
  wp (skippedEffect o) (fun _ w' => Adds w (mkOutput (skippedActions o) [] [] []) w') w.
Proof.
  intros o w. unfold skippedEffect.
  pose proof (Adds_clear_ref w) as H.
  unfold wp, bind, readRef in *. simpl in *.
  destruct (whenSome (timeoutRef w) clearTimeout w) as [[] w1]. simpl in H.
  destruct H as (H1 & H2 & H3 & H4). simpl in *. rewrite app_nil_r in *.
  unfold Adds, skippedActions.
  destruct (skipped o) as [[]|]; simpl; rewrite ?app_nil_r; repeat split; congruence.
Qed.

Lemma Adds_onChar : forall wd w,
  wp (onCharEffect wd) (fun _ w' => Adds w (mkOutput [] [] (onCharCalls wd) []) w') w.
Proof.
  intros. unfold wp, Adds. rewrite onCharEffect_world. simpl.
  rewrite completions_app, reveals_app, advanceDelays_app.
  rewrite reveals_onChar, completions_onChar, advanceDelays_onChar.
  now rewrite !app_nil_r.
Qed.

Lemma Adds_onFinished : forall d f o w,
  wp (onFinishedEffect d f o) (fun _ w' => Adds w noOutput w') w.
Proof.
  intros. unfold wp, onFinishedEffect, Adds.
  destruct (negb d && f); simpl;
    rewrite ?completions_app, ?reveals_app, ?advanceDelays_app; simpl;
    now rewrite !app_nil_r.
Qed.


Lemma Adds_windup : forall wd w,
  wp (windupEffect wd (isFinished wd))
     (fun _ w' => Adds w (mkOutput [] [] [] (windupDelays wd)) w') w.
Proof.
  intros. unfold wp, windupEffect, Adds, windupDelays.
  destruct (isFinished wd); simpl;
    rewrite ?completions_app, ?reveals_app, ?advanceDelays_app; simpl;
    now rewrite !app_nil_r.
Qed.


Lemma Adds_eq : forall w o o' w', o = o' -> Adds w o w' -> Adds w o' w'.
Proof. intros; subst; auto. Qed.

Lemma commitEffects_adds : forall props c,
  wp (commitEffects props c) (fun _ w' => Adds (world c) (commitOutput props c) w')
     (world c).
Proof.
  intros props c. unfold commitEffects.
  eapply Adds_seq with (a := noOutput) (b := noOutput).
  { apply Adds_refl. }
  { apply wp_when; intros _; [|apply Adds_refl].
    apply wp_whenSome; intros; [apply Adds_clearTimeout|apply Adds_refl]. }
  intros [] w1 A1.
  eapply Adds_seq with (b := noOutput); [exact A1| |].
  { apply wp_when; intros _; [|apply Adds_refl]. apply Adds_clear_ref. }
  intros [] w2 A2.
  eapply Adds_seq with
    (b := mkOutput (if changed (lastRender c) (fun r => sameDeps1 r props)
                    then [Replace (windupInit props)] else []) [] [] []);
    [exact A2| |].
  { destruct (changed (lastRender c) (fun r => sameDeps1 r props)); simpl.
    - apply Adds_dispatch.
    - apply Adds_refl. }
  intros [] w3 A3.
  eapply Adds_seq with
    (b := mkOutput (if changed (lastRender c) (fun r => sameDeps2 r props)
                    then skippedActions (options props) else []) [] [] []);
    [exact A3| |].
  { destruct (changed (lastRender c) (fun r => sameDeps2 r props)); simpl.
    - apply Adds_skipped.
    - apply Adds_refl. }
  intros [] w4 A4.
  eapply Adds_seq with
    (b := mkOutput [] [] (if changed (lastRender c) (fun r => sameDeps3 r (state c))
                          then onCharCalls (windup (state c)) else []) []);
    [exact A4| |].
  { destruct (changed (lastRender c) (fun r => sameDeps3 r (state c))); simpl.
    - apply Adds_onChar.
    - apply Adds_refl. }
  intros [] w5 A5.
  eapply Adds_seq with (b := noOutput); [exact A5| |].
  { destruct (changed (lastRender c) (fun r => sameDeps4 r props (state c))).
    - apply Adds_onFinished.
    - apply Adds_refl. }
  intros fc' w6 A6.
  eapply Adds_seq with
    (b := mkOutput [] [] [] (if changed (lastRender c) (fun r => sameDeps5 r (state c))
                             then windupDelays (windup (state c)) else []));
    [exact A6| |].
  { destruct (changed (lastRender c) (fun r => sameDeps5 r (state c))); simpl.
    - apply Adds_windup.
    - apply Adds_refl. }
  intros wc' w7 A7.
  apply wp_ret.
  eapply Adds_eq; [|exact A7].
  unfold commitOutput, plus, noOutput. simpl.
  rewrite ?app_nil_r. reflexivity.
Qed.

End Output.

Section Render.
Context {WM : WindupModule}.

Ltac good_split := split; [ | split ].

Lemma useWindup_state : forall props c, state (useWindup props c) = state c.
Proof.
  intros. unfold useWindup. now destruct (commitEffects props c (world c)).
Qed.

Lemma useWindup_lastRender : forall props c,
  lastRender (useWindup props c) =
  Some {| renderProps := props; renderState := state c |}.
Proof.
  intros. unfold useWindup. now destruct (commitEffects props c (world c)).
Qed.

Lemma useWindup_parts : forall props c,
  finishedCleanup (useWindup props c) = fst (fst (commitEffects props c (world c)))
  /\ windupCleanup (useWindup props c) = snd (fst (commitEffects props c (world c)))
  /\ world (useWindup props c) = snd (commitEffects props c (world c)).
Proof.
  intros. unfold useWindup. now destruct (commitEffects props c (world c)) as [[] ?].
Qed.

Lemma render_state : forall props c,
  state (render props c) = fold_left windupReducer (queue (world c)) (state c).
Proof. intros. unfold render. now rewrite useWindup_state. Qed.

Lemma render_lastRender : forall props c,
  lastRender (render props c) =
  Some {| renderProps := props; renderState := state (render props c) |}.
Proof.
  intros. unfold render. now rewrite useWindup_lastRender, useWindup_state.
Qed.

Lemma render_adds : forall props c,
  Adds (clearQueue (world c)) (commitOutput props (reduceQueue c))
       (world (render props c)).
Proof.
  intros. unfold render.
  destruct (useWindup_parts props (reduceQueue c)) as (_ & _ & Hw). rewrite Hw.
  apply (commitEffects_adds props (reduceQueue c)).
Qed.

Lemma render_queue : forall props c,
  queue (world (render props c)) = out_actions (commitOutput props (reduceQueue c)).
Proof.
  intros. destruct (render_adds props c) as (H & _). exact H.
Qed.

Lemma render_completions : forall props c,
  completions (trace (world (render props c))) = completions (trace (world c)).
Proof.
  intros. destruct (render_adds props c) as (_ & H & _). simpl in H.
  now rewrite app_nil_r in H.
Qed.

Lemma optBoolEqb_refl : forall o, optBoolEqb o o = true.
Proof. intros [[]|]; reflexivity. Qed.

(** Rendering again with the arguments of the last render dispatches
    nothing. *)
Lemma render_same_props_quiet : forall r c,
  lastRender c = Some r -> queue (world (render (renderProps r) c)) = [].
Proof.
  intros r c Hr. rewrite render_queue. unfold commitOutput. simpl. rewrite Hr. simpl.
  unfold sameDeps1, sameDeps2. now rewrite Object_is_refl, optBoolEqb_refl.
Qed.

Lemma settle_same_props : forall n r c,
  lastRender c = Some r ->
  settle (S n) (renderProps r) c = render (renderProps r) c.
Proof.
  intros n r c Hr. simpl. now rewrite (render_same_props_quiet r c Hr).
Qed.

(** Two renders always suffice. *)
Lemma settle_two : forall n props c,
  settle (S (S n)) props c =
  match queue (world (render props c)) with
  | [] => render props c
  | _ :: _ => render props (render props c)
  end.
Proof.
  intros n props c.
  change (settle (S (S n)) props c) with
    (match queue (world (render props c)) with
     | [] => render props c
     | _ :: _ => settle (S n) props (render props c)
     end).
  destruct (queue (world (render props c))); auto.
  pose proof (render_lastRender props c) as Hr.
  apply (settle_same_props n _ _ Hr).
Qed.

Lemma TimersOk_floor_le : forall floor floor' fc wc w,
  floor' <= floor -> TimersOk floor fc wc w -> TimersOk floor' fc wc w.
Proof.
  intros floor floor' fc wc w Hle [Hnd Hb Hr Hfc Hadv Hfin].
  constructor; auto.
  intros h Hin. destruct (Hadv h Hin) as (A & B & C). repeat split; auto. lia.
Qed.

Lemma Consistent_floor_le : forall floor floor' c,
  floor' <= floor -> Consistent floor c -> Consistent floor' c.
Proof.
  intros floor floor' c Hle [Ht Hc Hw Hl]. constructor; auto.
  eapply TimersOk_floor_le; eauto.
Qed.

Lemma reduce_Finish_not_due : forall st,
  finishDue (fold_left windupReducer [Finish] st) = false.
Proof. intros. reflexivity. Qed.


Lemma render_rendered : forall floor props c,
  Consistent floor c ->
  Rendered (if changed (lastRender c) (fun r => sameDeps2 r props)
               || changed (lastRender c) (fun r => sameDeps5 r (state (render props c)))
            then nextHandle (world c) else floor)
           props (render props c)
  /\ nextHandle (world c) <= nextHandle (world (render props c))
  /\ (changed (lastRender c) (fun r => sameDeps5 r (state (render props c))) = true ->
      isFinished (windup (state (render props c))) = false ->
      exists h, In (h, AdvanceCallback) (timers (world (render props c)))
                /\ nextHandle (world c) <= h).
Proof.
  intros floor props c [Ht Hc Hw Hl].
  pose proof (render_lastRender props c) as Hlr.
  pose proof (render_state props c) as Hst.
  unfold render in *.
  destruct (useWindup_parts props (reduceQueue c)) as (Hfc & Hwc & Hw').
  assert (Ht' : TimersOk floor (finishedCleanup (reduceQueue c))
                  (windupCleanup (reduceQueue c)) (world (reduceQueue c))).
  { destruct Ht. constructor; auto. }
  assert (Hlive' :
    changed (lastRender (reduceQueue c))
      (fun r => sameDeps4 r props (state (reduceQueue c))) = false ->
    FinishLive (finishedCleanup (reduceQueue c)) (world (reduceQueue c))).
  { simpl. intros H4. destruct Hl as [Hl | Hq]; [exact Hl|].
    apply changed_false in H4. destruct H4 as (r & Hr & Hs).
    apply sameDeps4_finishDue in Hs. rewrite Hq in Hs.
    rewrite reduce_Finish_not_due in Hs.
    rewrite Hr in Hc. simpl in Hc.
    intros h Hh. exfalso.
    assert (finishDue (renderState r) = true) by (apply Hc; eauto).
    congruence. }
  assert (Hgood := commitEffects_good floor props (reduceQueue c) Ht' Hc Hw Hlive').
  unfold wp in Hgood. rewrite <- Hfc, <- Hwc, <- Hw' in Hgood.
  destruct Hgood as ((G1 & G2 & G3) & G4 & G5 & G6).
  rewrite Hst. split; [|split; [exact G3|exact G6]].
  constructor; auto.
  constructor; auto.
  - rewrite Hlr. simpl. rewrite Hst. exact G4.
  - rewrite Hlr. simpl. rewrite Hst. exact G5.
Qed.

Lemma Rendered_quiescent : forall floor props c,
  Rendered floor props c -> queue (world c) = [] -> Quiescent c.
Proof.
  intros floor props c [Hc Hl Hr] Hq. constructor; auto.
  - eapply Consistent_floor_le; [|exact Hc]. lia.
  - eauto.
Qed.

Lemma settle_quiescent : forall floor props c,
  Consistent floor c -> Quiescent (settle renderBudget props c).
Proof.
  intros floor props c Hc.
  change renderBudget with (S (S 48)). rewrite settle_two.
  destruct (render_rendered floor props c Hc) as [R1 _].
  destruct (queue (world (render props c))) eqn:Hq.
  - eapply Rendered_quiescent; eauto.
  - destruct (render_rendered _ props (render props c) (rd_cons R1)) as [R2 _].
    eapply Rendered_quiescent; eauto.
    pose proof (render_lastRender props c) as Hlr.
    apply (render_same_props_quiet _ _ Hlr).
Qed.

Lemma mount_quiescent : forall props, Quiescent (mount props).
Proof.
  intros props. unfold mount. apply settle_quiescent with (floor := 0).
  constructor; simpl.
  - constructor; simpl; try (intros; contradiction); try discriminate.
    constructor.
  - reflexivity.
  - reflexivity.
  - left. intros h Hh. discriminate.
Qed.

End Render.

Section Handlers.
Context {WM : WindupModule}.

Ltac good_split := split; [ | split ].

(** The world after the handlers, spelled out. *)
Lemma fire_world : forall h w,
  exec (fire h) w =
  match findTimer h (timers w) with
  | None =>
      {| timeoutRef := timeoutRef w; timers := dropTimer h (timers w);
         nextHandle := nextHandle w; queue := queue w; trace := trace w |}
  | Some AdvanceCallback =>
      {| timeoutRef := timeoutRef w; timers := dropTimer h (timers w);
         nextHandle := nextHandle w; queue := queue w ++ [Next]; trace := trace w |}
  | Some (FinishCallback o) =>
      {| timeoutRef := timeoutRef w; timers := dropTimer h (timers w);
         nextHandle := nextHandle w; queue := queue w ++ [Finish];
         trace := trace w ++ map OnFinished (optionToList (onFinished o)) |}
  end.
Proof.
  intros h w. unfold exec, fire, bind, takeTimer. simpl.
  destruct (findTimer h (timers w)) as [[|o]|]; simpl; auto.
  unfold bind. destruct (onFinished o); simpl; auto.
  now rewrite app_nil_r.
Qed.

Lemma clear_ref_dispatch_world : forall a w,
  exec (bind readRef (fun current =>
          bind (whenSome current clearTimeout) (fun _ => dispatch a))) w =
  match timeoutRef w with
  | Some h =>
      {| timeoutRef := timeoutRef w; timers := dropTimer h (timers w);
         nextHandle := nextHandle w; queue := queue w ++ [a];
         trace := trace w ++ [ClearTimeout h] |}
  | None =>
      {| timeoutRef := timeoutRef w; timers := timers w;
         nextHandle := nextHandle w; queue := queue w ++ [a]; trace := trace w |}
  end.
Proof.
  intros a w. unfold exec, bind, readRef. simpl.
  destruct (timeoutRef w) eqn:E; simpl; rewrite ?E; reflexivity.
Qed.

Lemma TimersOk_drop : forall floor fc wc w w' h,
  TimersOk floor fc wc w ->
  timers w' = dropTimer h (timers w) -> timeoutRef w' = timeoutRef w ->
  nextHandle w' = nextHandle w ->
  TimersOk floor fc wc w'.
Proof.
  intros floor fc wc w w' h [Hnd Hb Hr Hfc Hadv Hfin] Ht Href Hn.
  constructor; rewrite ?Ht, ?Href, ?Hn; auto.
  - now apply nodup_dropTimer.
  - intros h' cb Hin. apply in_dropTimer in Hin. apply (Hb h' cb). tauto.
  - intros h' Hin. apply in_dropTimer in Hin. apply Hadv. tauto.
  - intros h' o Hin. apply in_dropTimer in Hin. apply (Hfin h' o). tauto.
Qed.

Lemma TimersOk_drop_ref : forall floor floor' fc wc w w' h,
  TimersOk floor fc wc w -> timeoutRef w = Some h ->
  timers w' = dropTimer h (timers w) -> timeoutRef w' = timeoutRef w ->
  nextHandle w' = nextHandle w ->
  TimersOk floor' fc wc w'.
Proof.
  intros floor floor' fc wc w w' h [Hnd Hb Hr Hfc Hadv Hfin] Hh Ht Href Hn.
  constructor; rewrite ?Ht, ?Href, ?Hn; auto.
  - now apply nodup_dropTimer.
  - intros h' cb Hin. apply in_dropTimer in Hin. apply (Hb h' cb). tauto.
  - intros h' Hin. apply in_dropTimer in Hin. destruct Hin as [Hin Hne].
    destruct (Hadv h' Hin) as (Hr' & _). congruence.
  - intros h' o Hin. apply in_dropTimer in Hin. apply (Hfin h' o). tauto.
Qed.

Lemma TimersOk_same : forall floor fc wc w w',
  sameTimers w w' -> TimersOk floor fc wc w -> TimersOk floor fc wc w'.
Proof.
  intros floor fc wc w w' (Ht & Hr & Hn) [Hnd Hb Hrf Hfc Hadv Hfin].
  constructor; rewrite ?Ht, ?Hr, ?Hn; auto.
Qed.

Lemma nodup_same_handle : forall h a b (ts : list (nat * TimerCallback)),
  NoDup (map fst ts) -> In (h, a) ts -> In (h, b) ts -> a = b.
Proof.
  intros h a b ts Hnd Ha Hb.
  apply In_findTimer in Ha; auto. apply In_findTimer in Hb; auto. congruence.
Qed.

Lemma findTimer_none : forall h (ts : list (nat * TimerCallback)),
  findTimer h ts = None -> forall cb, ~ In (h, cb) ts.
Proof.
  intros h ts. induction ts as [|[h' cb'] ts IH]; simpl; intros Hf cb Hin; auto.
  destruct (Nat.eqb_spec h' h).
  - discriminate.
  - destruct Hin as [Heq|Hin]; [inversion Heq; congruence|]. eapply IH; eauto.
Qed.

Lemma FinishLive_drop_other : forall fc w w' h,
  FinishLive fc w -> timers w' = dropTimer h (timers w) ->
  fc <> Some h -> FinishLive fc w'.
Proof.
  intros fc w w' h Hl Ht Hne h' Hh. destruct (Hl h' Hh) as [o Hin].
  exists o. rewrite Ht. apply in_dropTimer. split; auto. congruence.
Qed.

(** After a timeout fired. *)
Lemma fire_consistent : forall h c,
  Quiescent c -> Consistent 0 (onWorld (fire h) c).
Proof.
  intros h c [[Ht Hc Hw _] Hl Hq Hr].
  constructor; simpl; auto.
  - rewrite fire_world.
    destruct (findTimer h (timers (world c))) as [[|o]|];
      (eapply TimersOk_drop; [exact Ht|reflexivity..]).
  - rewrite fire_world.
    destruct (findTimer h (timers (world c))) as [[|o]|] eqn:Hf.
    + left. eapply FinishLive_drop_other; [exact Hl|reflexivity|].
      intros Hfc. destruct (Hl h Hfc) as [o Hin].
      apply findTimer_In in Hf.
      pose proof (nodup_same_handle h _ _ _ (ok_nodup Ht) Hf Hin). discriminate.
    + right. simpl. now rewrite Hq.
    + left. eapply FinishLive_drop_other; [exact Hl|reflexivity|].
      intros Hfc. destruct (Hl h Hfc) as [o Hin].
      eapply findTimer_none; eauto.
Qed.

(** After a handler that clears [timeoutRef.current] and dispatches: no
    advance timer is pending. *)
Lemma clear_ref_dispatch_consistent : forall floor a c,
  Quiescent c ->
  Consistent floor
    (onWorld (bind readRef (fun current =>
                bind (whenSome current clearTimeout) (fun _ => dispatch a))) c).
Proof.
  intros floor a c [[Ht Hc Hw _] Hl Hq Hr].
  constructor; simpl; auto.
  - rewrite clear_ref_dispatch_world.
    destruct (timeoutRef (world c)) as [h|] eqn:Href.
    + eapply TimersOk_drop_ref; [exact Ht|exact Href|reflexivity|simpl; auto|reflexivity].
    + eapply TimersOk_same with (w := world c); [repeat split; simpl; auto|].
      eapply TimersOk_no_advance with (floor := 0).
      eapply TimersOk_no_ref with (floor := 0); eauto.
  - left. rewrite clear_ref_dispatch_world.
    destruct (timeoutRef (world c)) as [h|] eqn:Href.
    + eapply FinishLive_drop_other; [exact Hl|reflexivity|].
      intros Hfc. destruct (ok_fc Ht Hfc) as [_ Hne]. congruence.
    + intros h Hh. destruct (Hl h Hh) as [o Hin]. exists o. exact Hin.
Qed.

Lemma onWorld_ret : forall c, onWorld (ret tt) c = c.
Proof. intros []. reflexivity. Qed.

End Handlers.

Section Steps.
Context {WM : WindupModule}.

Lemma step_shape : forall e c r,
  lastRender c = Some r ->
  step e c =
  match queue (world (fst (firstPhase e r c))) with
  | [] => fst (firstPhase e r c)
  | _ :: _ => render (snd (firstPhase e r c)) (fst (firstPhase e r c))
  end.
Proof.
  intros e c r Hr. unfold step. rewrite Hr.
  destruct e as [h| | |props]; cbn [firstPhase fst snd].
  - unfold handle. destruct (queue (world (onWorld (fire h) c))); auto.
    change renderBudget with (S 49). now apply settle_same_props.
  - unfold handle.
    destruct (queue (world (onWorld (skip (isFinished (windup (renderState r)))) c))); auto.
    change renderBudget with (S 49). now apply settle_same_props.
  - unfold handle. destruct (queue (world (onWorld rewindRequest c))); auto.
    change renderBudget with (S 49). now apply settle_same_props.
  - change renderBudget with (S (S 48)). apply settle_two.
Qed.

Lemma skip_cases : forall b c,
  onWorld (skip b) c =
  if b then c
  else onWorld (bind readRef (fun current =>
                  bind (whenSome current clearTimeout) (fun _ => dispatch FastForward))) c.
Proof.
  intros [] c; simpl; auto. apply onWorld_ret.
Qed.

Lemma Quiescent_consistent : forall c, Quiescent c -> Consistent 0 c.
Proof. intros c Hq. exact (q_cons Hq). Qed.

Lemma firstPhase_consistent : forall e r c,
  Quiescent c -> lastRender c = Some r ->
  Consistent 0 (fst (firstPhase e r c)).
Proof.
  intros e r c Hq Hr. destruct e as [h| | |props]; cbn [firstPhase fst snd].
  - now apply fire_consistent.
  - rewrite skip_cases. destruct (isFinished (windup (renderState r))).
    + now apply Quiescent_consistent.
    + now apply clear_ref_dispatch_consistent.
  - now apply clear_ref_dispatch_consistent.
  - destruct (render_rendered 0 props c (Quiescent_consistent c Hq)) as [R _].
    eapply Consistent_floor_le; [|exact (rd_cons R)]. lia.
Qed.

(** The first phase leaves the reducer state alone, and what the next
    render compares against is the state the event started from. *)
Lemma firstPhase_state : forall e r c,
  Quiescent c -> lastRender c = Some r ->
  state (fst (firstPhase e r c)) = state c
  /\ lastRender (fst (firstPhase e r c)) =
     Some {| renderProps := snd (firstPhase e r c); renderState := state c |}.
Proof.
  intros e r c Hq Hr.
  destruct (q_render Hq) as [p0 Hp0].
  assert (r = {| renderProps := p0; renderState := state c |}) by congruence.
  subst r.
  destruct e as [h| | |props]; cbn [firstPhase fst snd]; auto.
  rewrite render_lastRender, render_state, (q_queue Hq). simpl. auto.
Qed.

Lemma firstPhase_nextHandle : forall e r c,
  Quiescent c -> lastRender c = Some r ->
  nextHandle (world c) <= nextHandle (world (fst (firstPhase e r c))).
Proof.
  intros e r c Hq Hr. destruct e as [h| | |props]; cbn [firstPhase fst snd].
  - simpl. rewrite fire_world.
    destruct (findTimer h (timers (world c))) as [[|o]|]; simpl; lia.
  - rewrite skip_cases. destruct (isFinished (windup (renderState r))); auto.
    simpl. rewrite clear_ref_dispatch_world.
    destruct (timeoutRef (world c)); simpl; lia.
  - unfold rewindRequest. simpl. rewrite clear_ref_dispatch_world.
    destruct (timeoutRef (world c)); simpl; lia.
  - apply (render_rendered 0 props c (Quiescent_consistent c Hq)).
Qed.

(** ** The invariant holds in every reachable state *)

Lemma step_quiescent : forall e c, Quiescent c -> Quiescent (step e c).
Proof.
  intros e c Hq.
  destruct (q_render Hq) as [p0 Hp0].
  rewrite (step_shape e c _ Hp0).
  pose proof (firstPhase_consistent e _ c Hq Hp0) as Hc1.
  destruct (firstPhase_state e _ c Hq Hp0) as [Hs1 Hl1].
  set (c1 := fst (firstPhase e _ c)) in *.
  set (p1 := snd (firstPhase e _ c)) in *.
  destruct (queue (world c1)) eqn:Hq1.
  - constructor; auto.
    + destruct (cons_live Hc1) as [Hl|Hx]; [exact Hl|congruence].
    + exists p1. now rewrite Hs1.
  - destruct (render_rendered 0 p1 c1 Hc1) as [R _].
    eapply Rendered_quiescent; eauto.
    apply (render_same_props_quiet _ _ Hl1).
Qed.

Lemma reachable_quiescent : forall c, Reachable c -> Quiescent c.
Proof.
  induction 1.
  - apply mount_quiescent.
  - now apply step_quiescent.
Qed.

End Steps.

Section Timers.
Context {WM : WindupModule}.

(** Trace and queue after the first phase of an event. *)
Lemma firstPhase_reveals : forall e r c,
  Quiescent c -> lastRender c = Some r ->
  reveals (trace (world (fst (firstPhase e r c)))) = reveals (trace (world c)).
Proof.
  intros e r c Hq Hr.
  destruct (q_render Hq) as [p0 Hp0].
  assert (r = {| renderProps := p0; renderState := state c |}) by congruence.
  subst r.
  destruct e as [h| | |props]; cbn [firstPhase fst snd].
  - simpl. rewrite fire_world.
    destruct (findTimer h (timers (world c))) as [[|o]|]; simpl; auto.
    rewrite reveals_app. destruct (onFinished o); simpl; now rewrite app_nil_r.
  - rewrite skip_cases. cbn [renderState].
    destruct (isFinished (windup (state c))); auto.
    simpl. rewrite clear_ref_dispatch_world.
    destruct (timeoutRef (world c)); simpl; auto.
    rewrite reveals_app. simpl. now rewrite app_nil_r.
  - unfold rewindRequest. simpl. rewrite clear_ref_dispatch_world.
    destruct (timeoutRef (world c)); simpl; auto.
    rewrite reveals_app. simpl. now rewrite app_nil_r.
  - destruct (render_adds props c) as (_ & _ & H & _).
    rewrite H. unfold commitOutput. cbn [out_reveals]. simpl.
    rewrite Hp0. simpl. unfold sameDeps3. simpl. rewrite (q_queue Hq). simpl.
    rewrite Object_is_refl. simpl. now rewrite app_nil_r.
Qed.

Lemma render_reveals : forall props c r,
  lastRender c = Some r ->
  reveals (trace (world (render props c))) =
  reveals (trace (world c))
  ++ (if Object_is (windup (renderState r)) (windup (state (render props c)))
      then [] else onCharCalls (windup (state (render props c)))).
Proof.
  intros props c r Hr.
  destruct (render_adds props c) as (_ & _ & H & _). rewrite H.
  unfold commitOutput. cbn [out_reveals]. simpl. rewrite Hr. simpl.
  unfold sameDeps3. rewrite render_state.
  now destruct (Object_is _ _).
Qed.

Lemma step_reveals : forall e c,
  Quiescent c ->
  reveals (trace (world (step e c))) =
  reveals (trace (world c))
  ++ (if Object_is (windup (state c)) (windup (state (step e c)))
      then [] else onCharCalls (windup (state (step e c)))).
Proof.
  intros e c Hq.
  destruct (q_render Hq) as [p0 Hp0].
  rewrite (step_shape e c _ Hp0).
  pose proof (firstPhase_reveals e _ c Hq Hp0) as Hrev.
  destruct (firstPhase_state e _ c Hq Hp0) as [Hs1 Hl1].
  set (c1 := fst (firstPhase e _ c)) in *.
  set (p1 := snd (firstPhase e _ c)) in *.
  destruct (queue (world c1)) eqn:Hq1.
  - rewrite Hs1, Object_is_refl, app_nil_r. exact Hrev.
  - rewrite (render_reveals p1 c1 _ Hl1). simpl. now rewrite Hrev.
Qed.

(** Advance timers after an event. *)
Lemma render_fresh : forall floor props c r,
  Consistent floor c -> lastRender c = Some r ->
  Object_is (windup (renderState r)) (windup (state (render props c))) = false ->
  forall h, In (h, AdvanceCallback) (timers (world (render props c))) ->
            nextHandle (world c) <= h.
Proof.
  intros floor props c r Hc Hr Hne h Hin.
  destruct (render_rendered floor props c Hc) as [R _].
  rewrite Hr in R. simpl in R. unfold sameDeps5 in R. rewrite Hne in R. simpl in R.
  rewrite orb_true_r in R.
  destruct (ok_adv (cons_timers (rd_cons R)) h Hin) as (_ & _ & Hle). exact Hle.
Qed.

Lemma render_keeps_floor : forall floor props c,
  Consistent floor c -> floor <= nextHandle (world c) ->
  forall h, In (h, AdvanceCallback) (timers (world (render props c))) -> floor <= h.
Proof.
  intros floor props c Hc Hle h Hin.
  destruct (render_rendered floor props c Hc) as [R _].
  destruct (ok_adv (cons_timers (rd_cons R)) h Hin) as (_ & _ & Hf).
  destruct (_ || _); lia.
Qed.

Lemma handler_nextHandle : forall a c,
  nextHandle (world (onWorld (bind readRef (fun current =>
     bind (whenSome current clearTimeout) (fun _ => dispatch a))) c))
  = nextHandle (world c)
  /\ queue (world (onWorld (bind readRef (fun current =>
     bind (whenSome current clearTimeout) (fun _ => dispatch a))) c))
     = queue (world c) ++ [a].
Proof.
  intros a c. simpl. rewrite clear_ref_dispatch_world.
  destruct (timeoutRef (world c)); simpl; auto.
Qed.

Lemma clear_ref_step_fresh : forall a c p0,
  Quiescent c ->
  lastRender c = Some {| renderProps := p0; renderState := state c |} ->
  forall h,
    In (h, AdvanceCallback)
       (timers (world (render p0 (onWorld (bind readRef (fun current =>
          bind (whenSome current clearTimeout) (fun _ => dispatch a))) c)))) ->
    nextHandle (world c) <= h.
Proof.
  intros a c p0 Hq Hp0 h Hin.
  pose proof (clear_ref_dispatch_consistent (nextHandle (world c)) a c Hq) as Hc1.
  destruct (handler_nextHandle a c) as [Hn _].
  eapply render_keeps_floor; [exact Hc1| |exact Hin]. rewrite Hn. lia.
Qed.

Lemma step_fresh : forall e c,
  Quiescent c ->
  e = RewindRequest
  \/ (e = Skip /\ isFinished (windup (state c)) = false)
  \/ Object_is (windup (state c)) (windup (state (step e c))) = false ->
  forall h, In (h, AdvanceCallback) (timers (world (step e c))) ->
            nextHandle (world c) <= h.
Proof.
  intros e c Hq Hcase.
  destruct (q_render Hq) as [p0 Hp0].
  destruct Hcase as [He | [[He Hnf] | Hne]].
  - subst e. rewrite (step_shape _ c _ Hp0). cbn [firstPhase fst snd].
    unfold rewindRequest.
    destruct (handler_nextHandle Rewind c) as [_ Hqe]. rewrite Hqe, (q_queue Hq).
    simpl app. cbv iota. cbn [renderProps].
    apply clear_ref_step_fresh; auto.
  - subst e. rewrite (step_shape _ c _ Hp0). cbn [firstPhase fst snd renderState].
    rewrite skip_cases, Hnf.
    destruct (handler_nextHandle FastForward c) as [_ Hqe]. rewrite Hqe, (q_queue Hq).
    simpl app. cbv iota. cbn [renderProps].
    apply clear_ref_step_fresh; auto.
  - revert Hne. rewrite (step_shape e c _ Hp0).
    pose proof (firstPhase_consistent e _ c Hq Hp0) as Hc1.
    pose proof (firstPhase_nextHandle e _ c Hq Hp0) as Hn1.
    destruct (firstPhase_state e _ c Hq Hp0) as [Hs1 Hl1].
    set (c1 := fst (firstPhase e _ c)) in *.
    set (p1 := snd (firstPhase e _ c)) in *.
    destruct (queue (world c1)) eqn:Hq1.
    + rewrite Hs1, Object_is_refl. discriminate.
    + intros Hne h Hin.
      pose proof (render_fresh 0 p1 c1 _ Hc1 Hl1 Hne h Hin). lia.
Qed.

Lemma nodup_filter_fst : forall (f : nat * TimerCallback -> bool) ts,
  NoDup (map fst ts) -> NoDup (map fst (filter f ts)).
Proof.
  intros f ts. induction ts as [|t ts IH]; simpl; intros Hnd; [constructor|].
  inversion Hnd as [|x l Hx Hl]; subst.
  destruct (f t); simpl; auto.
  constructor; auto.
  intros Hin. apply Hx. apply in_map_iff in Hin.
  destruct Hin as [t' [Heq Hin]]. apply filter_In in Hin.
  apply in_map_iff. exists t'. tauto.
Qed.

Lemma advance_at_most_one : forall c,
  Quiescent c -> List.length (advanceTimers c) <= 1.
Proof.
  intros c Hq. pose proof (cons_timers (q_cons Hq)) as Ht.
  destruct (timeoutRef (world c)) as [h0|] eqn:Href.
  - apply same_handle_short with (h := h0).
    + apply nodup_filter_fst. exact (ok_nodup Ht).
    + intros [h cb] Hin. apply filter_In in Hin. destruct Hin as [Hin Hadv].
      unfold isAdvance in Hadv. simpl in Hadv. destruct cb; [|discriminate].
      destruct (ok_adv Ht h Hin) as (Hr & _). simpl. congruence.
  - destruct (advanceTimers c) as [|[h cb] l] eqn:Hl; simpl; [lia|].
    assert (Hin : In (h, cb) (advanceTimers c)) by (rewrite Hl; now left).
    apply filter_In in Hin. destruct Hin as [Hin Hadv].
    unfold isAdvance in Hadv. simpl in Hadv. destruct cb; [|discriminate].
    destruct (ok_adv Ht h Hin) as (Hr & _). congruence.
Qed.

End Timers.

Section Completion.
Context {WM : WindupModule}.


Lemma completions_OnFinished : forall l,
  completions (map OnFinished l) = l.
Proof. induction l; simpl; congruence. Qed.

Lemma firstPhase_output : forall e r c,
  Quiescent c -> lastRender c = Some r ->
  queue (world (fst (firstPhase e r c))) = firstQueue e r c
  /\ completions (trace (world (fst (firstPhase e r c)))) =
     completions (trace (world c)) ++ firedCompletions e c.
Proof.
  intros e r c Hq Hr.
  pose proof (q_queue Hq) as Hq0.
  destruct e as [h| | |props]; cbn [firstPhase fst snd firstQueue firedCompletions].
  - simpl. rewrite fire_world.
    destruct (findTimer h (timers (world c))) as [[|o]|]; simpl;
      rewrite ?Hq0, ?app_nil_r; auto.
    split; auto. rewrite completions_app. now rewrite completions_OnFinished.
  - rewrite skip_cases. destruct (isFinished (windup (renderState r))).
    + now rewrite app_nil_r.
    + simpl. rewrite clear_ref_dispatch_world.
      destruct (timeoutRef (world c)); simpl; rewrite Hq0, ?app_nil_r; auto.
      split; auto. rewrite completions_app. simpl. now rewrite app_nil_r.
  - unfold rewindRequest. simpl. rewrite clear_ref_dispatch_world.
    destruct (timeoutRef (world c)); simpl; rewrite Hq0, ?app_nil_r; auto.
    split; auto. rewrite completions_app. simpl. now rewrite app_nil_r.
  - rewrite render_queue, render_completions, app_nil_r. split; auto.
    unfold commitOutput. simpl. rewrite Hr. simpl.
    destruct (sameDeps1 r props), (sameDeps2 r props); reflexivity.
Qed.

Lemma step_state : forall e c r,
  Quiescent c -> lastRender c = Some r ->
  state (step e c) = fold_left windupReducer (firstQueue e r c) (state c).
Proof.
  intros e c r Hq Hr.
  rewrite (step_shape e c _ Hr).
  destruct (firstPhase_output e r c Hq Hr) as [Hqu _].
  destruct (firstPhase_state e r c Hq Hr) as [Hs1 _].
  rewrite <- Hqu.
  destruct (queue (world (fst (firstPhase e r c)))) eqn:E.
  - simpl. exact Hs1.
  - rewrite render_state, E, Hs1. reflexivity.
Qed.

Lemma step_completions : forall e c,
  Quiescent c ->
  completions (trace (world (step e c))) =
  completions (trace (world c)) ++ firedCompletions e c.
Proof.
  intros e c Hq. destruct (q_render Hq) as [p0 Hp0].
  rewrite (step_shape e c _ Hp0).
  destruct (firstPhase_output e _ c Hq Hp0) as [_ Hco].
  destruct (queue (world (fst (firstPhase e _ c)))); auto.
  now rewrite render_completions.
Qed.

(** A pending finish timeout means the completion is due. *)
Lemma finish_timer_due : forall c h o,
  Quiescent c -> In (h, FinishCallback o) (timers (world c)) ->
  isFinished (windup (state c)) = true /\ didFinishOnce (state c) = false.
Proof.
  intros c h o Hq Hin.
  pose proof (ok_fin (cons_timers (q_cons Hq)) h o Hin) as Hfc.
  pose proof (cons_cleanup (q_cons Hq)) as Hcm.
  destruct (q_render Hq) as [p0 Hp0]. rewrite Hp0 in Hcm. simpl in Hcm.
  assert (Hd : finishDue (state c) = true) by (apply Hcm; eauto).
  unfold finishDue in Hd. apply andb_true_iff in Hd. destruct Hd as [Hd Hf].
  split; auto. now apply negb_true_iff.
Qed.

Lemma finish_timer_unique : forall c,
  Quiescent c ->
  isFinished (windup (state c)) = true -> didFinishOnce (state c) = false ->
  exists h o, finishTimers c = [(h, FinishCallback o)].
Proof.
  intros c Hq Hf Hd.
  pose proof (cons_timers (q_cons Hq)) as Ht.
  pose proof (cons_cleanup (q_cons Hq)) as Hcm.
  destruct (q_render Hq) as [p0 Hp0]. rewrite Hp0 in Hcm. simpl in Hcm.
  assert (Hdue : finishDue (state c) = true).
  { unfold finishDue. now rewrite Hf, Hd. }
  apply Hcm in Hdue. destruct Hdue as [h Hfc].
  pose proof (q_live Hq) as Hl.
  destruct (Hl h Hfc) as [o Hin].
  exists h, o.
  assert (Hin' : In (h, FinishCallback o) (finishTimers c)).
  { apply filter_In. split; auto. }
  assert (Hlen : List.length (finishTimers c) <= 1).
  { apply same_handle_short with (h := h).
    - apply nodup_filter_fst. exact (ok_nodup Ht).
    - intros [h' cb] Hi. apply filter_In in Hi. destruct Hi as [Hi Hfin].
      destruct cb as [|o']; [discriminate|].
      pose proof (ok_fin Ht h' o' Hi). simpl. congruence. }
  revert Hin' Hlen. generalize (finishTimers c). intros [|t [|t' l]]; simpl; intros Hin' Hlen.
  - contradiction.
  - destruct Hin' as [->|[]]. reflexivity.
  - lia.
Qed.







End Completion.

Section Mount.
Context {WM : WindupModule}.

(** A finished windup has no advance timer pending. *)
Lemma finished_no_advance : forall c h,
  Quiescent c -> isFinished (windup (state c)) = true ->
  ~ In (h, AdvanceCallback) (timers (world c)).
Proof.
  intros c h Hq Hf Hin.
  destruct (ok_adv (cons_timers (q_cons Hq)) h Hin) as (_ & Hwc & _).
  pose proof (cons_windup (q_cons Hq)) as Hw.
  destruct (q_render Hq) as [p0 Hp0]. rewrite Hp0 in Hw. simpl in Hw.
  rewrite Hf in Hw. simpl in Hw. congruence.
Qed.

Lemma filter_id : forall A (f : A -> bool) l,
  (forall x, In x l -> f x = true) -> filter f l = l.
Proof.
  intros A f l. induction l as [|a l IH]; simpl; intros H; auto.
  rewrite (H a (or_introl eq_refl)). f_equal. apply IH. intros; apply H; now right.
Qed.

Lemma finished_timers : forall c,
  Quiescent c -> isFinished (windup (state c)) = true ->
  timers (world c) = finishTimers c.
Proof.
  intros c Hq Hf. unfold finishTimers. symmetry. apply filter_id.
  intros [h [|o]] Hin; auto.
  exfalso. eapply finished_no_advance; eauto.
Qed.

Lemma done_no_timers : forall c,
  Quiescent c -> isFinished (windup (state c)) = true ->
  didFinishOnce (state c) = true -> timers (world c) = [].
Proof.
  intros c Hq Hf Hd. rewrite (finished_timers c Hq Hf).
  unfold finishTimers.
  destruct (filter isFinish (timers (world c))) as [|[h cb] l] eqn:E; auto.
  assert (Hin : In (h, cb) (filter isFinish (timers (world c)))) by (rewrite E; now left).
  apply filter_In in Hin. destruct Hin as [Hin Hfin].
  destruct cb as [|o]; [discriminate|].
  destruct (finish_timer_due c h o Hq Hin). congruence.
Qed.











(** Mounting is two renders: the replace effect always dispatches. *)
Lemma mount_two_renders : forall props,
  mount props = render props (render props (unmounted props)).
Proof.
  intros props. unfold mount. change renderBudget with (S (S 48)).
  rewrite settle_two, render_queue. reflexivity.
Qed.


Lemma unmounted_render_state : forall props,
  state (render props (unmounted props)) = initWindupState (windupInit props)
  /\ lastRender (render props (unmounted props)) =
     Some {| renderProps := props; renderState := initWindupState (windupInit props) |}
  /\ queue (world (render props (unmounted props))) =
     Replace (windupInit props) :: skippedActions (options props).
Proof.
  intros props. rewrite render_lastRender, render_state, render_queue.
  repeat split.
Qed.

Lemma mount_state : forall props,
  state (mount props) =
  fold_left windupReducer (skippedActions (options props))
            (initWindupState (windupInit props)).
Proof.
  intros props. rewrite mount_two_renders, render_state.
  destruct (unmounted_render_state props) as (Hs & _ & Hq). rewrite Hs, Hq.
  reflexivity.
Qed.

Lemma render_delays : forall props c r,
  lastRender c = Some r ->
  advanceDelays (trace (world (render props c))) =
  advanceDelays (trace (world c))
  ++ (if sameDeps5 r (state (render props c)) then []
      else windupDelays (windup (state (render props c)))).
Proof.
  intros props c r Hr.
  destruct (render_adds props c) as (_ & _ & _ & H). rewrite H.
  unfold commitOutput. cbn [out_delays]. simpl. rewrite Hr. simpl.
  rewrite render_state. now destruct (sameDeps5 _ _).
Qed.

Lemma mount_output : forall props,
  completions (trace (world (mount props))) = []
  /\ reveals (trace (world (mount props))) =
     onCharCalls (windupInit props)
     ++ (if Object_is (windupInit props) (windup (state (mount props)))
         then [] else onCharCalls (windup (state (mount props))))
  /\ advanceDelays (trace (world (mount props))) =
     windupDelays (windupInit props)
     ++ (if sameDeps5 {| renderProps := props;
                         renderState := initWindupState (windupInit props) |}
                      (state (mount props))
         then [] else windupDelays (windup (state (mount props)))).
Proof.
  intros props.
  destruct (unmounted_render_state props) as (Hs & Hl & Hq).
  rewrite mount_two_renders.
  split; [|split].
  - now rewrite !render_completions.
  - rewrite (render_reveals props _ _ Hl). simpl. f_equal.
    destruct (render_adds props (unmounted props)) as (_ & _ & H & _).
    rewrite H. reflexivity.
  - rewrite (render_delays props _ _ Hl). f_equal.
    destruct (render_adds props (unmounted props)) as (_ & _ & _ & H).
    rewrite H. reflexivity.
Qed.

Lemma firstPhase_delays : forall e r c,
  Quiescent c -> lastRender c = Some r ->
  advanceDelays (trace (world (fst (firstPhase e r c)))) =
  advanceDelays (trace (world c)).
Proof.
  intros e r c Hq Hr.
  destruct (q_render Hq) as [p0 Hp0].
  destruct e as [h| | |props]; cbn [firstPhase fst snd].
  - simpl. rewrite fire_world.
    destruct (findTimer h (timers (world c))) as [[|o]|]; simpl; auto.
    rewrite advanceDelays_app. destruct (onFinished o); simpl; now rewrite app_nil_r.
  - rewrite skip_cases.
    destruct (isFinished (windup (renderState r))); auto.
    simpl. rewrite clear_ref_dispatch_world.
    destruct (timeoutRef (world c)); simpl; auto.
    rewrite advanceDelays_app. simpl. now rewrite app_nil_r.
  - unfold rewindRequest. simpl. rewrite clear_ref_dispatch_world.
    destruct (timeoutRef (world c)); simpl; auto.
    rewrite advanceDelays_app. simpl. now rewrite app_nil_r.
  - rewrite (render_delays props c _ Hp0), render_state, (q_queue Hq). simpl.
    unfold sameDeps5. simpl. rewrite Object_is_refl, eqb_reflx. simpl.
    now rewrite app_nil_r.
Qed.

Lemma step_delays : forall e c,
  Quiescent c ->
  advanceDelays (trace (world (step e c))) =
  advanceDelays (trace (world c))
  ++ (if Object_is (windup (state c)) (windup (state (step e c)))
         && Bool.eqb (isFinished (windup (state c)))
                     (isFinished (windup (state (step e c))))
      then [] else windupDelays (windup (state (step e c)))).
Proof.
  intros e c Hq.
  destruct (q_render Hq) as [p0 Hp0].
  rewrite (step_shape e c _ Hp0).
  pose proof (firstPhase_delays e _ c Hq Hp0) as Hd.
  destruct (firstPhase_state e _ c Hq Hp0) as [Hs1 Hl1].
  set (c1 := fst (firstPhase e _ c)) in *.
  set (p1 := snd (firstPhase e _ c)) in *.
  destruct (queue (world c1)) eqn:Hq1.
  - rewrite Hs1, Object_is_refl, eqb_reflx, app_nil_r. exact Hd.
  - rewrite (render_delays p1 c1 _ Hl1). unfold sameDeps5. simpl. now rewrite Hd.
Qed.

End Mount.

Section Inert.
Context {WM : WindupModule}.





End Inert.

Section Captured.
Context {WM : WindupModule}.







End Captured.

Section Claims.
Context {WM : WindupModule}.

(** C10.  Frame conditions of the reducer: "next" and "fast-forward" leave
    [didFinishOnce] as it is, "finish" leaves the windup as it is and sets
    [didFinishOnce], "rewind" and "replace" always give
    [didFinishOnce = false]. *)
Theorem windupReducer_frame : forall (s : WindupReducerState) (w : Windup),
  didFinishOnce (windupReducer s Next) = didFinishOnce s
  /\ didFinishOnce (windupReducer s FastForward) = didFinishOnce s
  /\ windupReducer s Finish = {| windup := windup s; didFinishOnce := true |}
  /\ didFinishOnce (windupReducer s Rewind) = false
  /\ windupReducer s (Replace w) = {| windup := w; didFinishOnce := false |}.
Proof. intros s w. repeat split. Qed.

(** C6.  Calling [skip()] when the windup is finished changes nothing: no
    dispatch, no timer cleared or set, no callback, no render. *)
Theorem skip_when_finished_is_noop : forall c,
  Reachable c -> isFinished (windup (state c)) = true -> step Skip c = c.
Proof.
  intros c Hr Hf. apply reachable_quiescent in Hr.
  destruct (q_render Hr) as [p0 Hp0].
  rewrite (step_shape Skip c _ Hp0). cbn [firstPhase fst snd renderState].
  rewrite skip_cases, Hf. now rewrite (q_queue Hr).
Qed.

(** C8.  While no element has been played ([lastPlayedElement] is absent)
    the windup effect schedules the advance with delay 0, whatever pace
    function the windup carries. *)
Theorem first_advance_delay_is_zero : forall (wd : Windup) (w : World),
  lastPlayedElement wd = None -> isFinished wd = false ->
  windupEffect wd (isFinished wd) w =
  (true,
   {| timeoutRef := Some (nextHandle w);
      timers := timers w ++ [(nextHandle w, AdvanceCallback)];
      nextHandle := S (nextHandle w);
      queue := queue w;
      trace := trace w ++ [SetTimeout (nextHandle w) AdvanceCallback (Num 0)] |}).
Proof.
  intros wd w Hl Hf. unfold windupEffect, advanceDelay. rewrite Hf, Hl. reflexivity.
Qed.

(** C4, as the code has it.  The hook does not clamp.  On an unfinished
    windup the windup effect always schedules the advance; when the last
    played element is a non-empty string the delay handed to [setTimeout]
    is the result of the pace function, unchanged, whatever number that
    is; when no element has been played, or the last played element is
    the empty string, the delay is 0. *)
Theorem pace_delay_passed_unchanged : forall (wd : Windup) (w : World),
  isFinished wd = false ->
  windupEffect wd (isFinished wd) w =
  (true,
   {| timeoutRef := Some (nextHandle w);
      timers := timers w ++ [(nextHandle w, AdvanceCallback)];
      nextHandle := S (nextHandle w);
      queue := queue w;
      trace := trace w ++
        [SetTimeout (nextHandle w) AdvanceCallback
           (match lastPlayedElement wd with
            | Some (String a s) =>
                match paceFromWindup wd with
                | Some getPace => getPace (String a s) (nextElement wd)
                | None => defaultGetPace (String a s) (nextElement wd)
                end
            | Some EmptyString => Num 0
            | None => Num 0
            end)] |}).
Proof.
  intros wd w Hf. unfold windupEffect, advanceDelay. rewrite Hf. simpl.
  destruct (lastPlayedElement wd) as [[|a s]|]; simpl; auto.
  now destruct (paceFromWindup wd).
Qed.

(** C2, as the code has it.  An event calls the onChar callbacks only when
    it leaves another windup object in the state, and then it calls the
    callbacks of the new windup, each once and in order, with the last
    played element only. *)
Theorem reveals_only_last_played : forall c e,
  Reachable c ->
  reveals (trace (world (step e c))) =
  reveals (trace (world c))
  ++ (if Object_is (windup (state c)) (windup (state (step e c)))
      then [] else onCharCalls (windup (state (step e c)))).
Proof.
  intros c e Hr. apply step_reveals. now apply reachable_quiescent.
Qed.

(** C3.  Between events at most one advance timer is pending, and it is
    the one [timeoutRef] holds.  After [rewind()], after [skip()] on an
    unfinished windup, and after any event that leaves another windup
    object in the state, every pending advance timer was set during that
    event: the handles pending before the event are all below
    [nextHandle]. *)
Theorem at_most_one_advance_timer : forall c,
  Reachable c ->
  List.length (advanceTimers c) <= 1
  /\ (forall h, In (h, AdvanceCallback) (timers (world c)) ->
                timeoutRef (world c) = Some h)
  /\ (forall h cb, In (h, cb) (timers (world c)) -> h < nextHandle (world c))
  /\ (forall e,
        e = RewindRequest
        \/ (e = Skip /\ isFinished (windup (state c)) = false)
        \/ Object_is (windup (state c)) (windup (state (step e c))) = false ->
        forall h, In (h, AdvanceCallback) (timers (world (step e c))) ->
                  nextHandle (world c) <= h).
Proof.
  intros c Hr. apply reachable_quiescent in Hr.
  pose proof (cons_timers (q_cons Hr)) as Ht.
  split; [now apply advance_at_most_one|].
  split; [intros h Hin; now destruct (ok_adv Ht h Hin)|].
  split; [exact (ok_bound Ht)|].
  intros e He. now apply step_fresh.
Qed.

(** C5, as the code has it.  When an event (a rewind or a replacement in
    particular) leaves an unfinished windup in the state, no completion
    timeout is pending afterwards, and no timeout that fires next calls
    [onFinished]. *)
Theorem completion_cancelled_when_unfinished : forall c e,
  Reachable c ->
  isFinished (windup (state (step e c))) = false ->
  finishTimers (step e c) = []
  /\ forall h,
       completions (trace (world (step (TimerFires h) (step e c)))) =
       completions (trace (world (step e c))).
Proof.
  intros c e Hr Hnf.
  assert (Hq : Quiescent (step e c)).
  { apply step_quiescent. now apply reachable_quiescent. }
  assert (Hnone : forall h o, ~ In (h, FinishCallback o) (timers (world (step e c)))).
  { intros h o Hin. destruct (finish_timer_due _ h o Hq Hin) as [Hf _]. congruence. }
  split.
  - unfold finishTimers.
    destruct (filter isFinish (timers (world (step e c)))) as [|[h cb] l] eqn:Hfl; auto.
    assert (Hin : In (h, cb) (filter isFinish (timers (world (step e c)))))
      by (rewrite Hfl; now left).
    apply filter_In in Hin. destruct Hin as [Hin Hfin].
    destruct cb as [|o]; [discriminate|]. exfalso. eapply Hnone; eauto.
  - intros h. rewrite (step_completions _ _ Hq). simpl.
    destruct (findTimer h (timers (world (step e c)))) as [[|o]|] eqn:Hf;
      rewrite ?app_nil_r; auto.
    apply findTimer_In in Hf. exfalso. eapply Hnone; eauto.
Qed.


End Claims.

Module OnSpecModel.
Import Scenarios.




(** C7, where the code departs from it.  The hook is mounted on [ab] with
    [skipped = false] and then rendered with [skipped] absent: the skipped
    effect runs again, clears the pending advance timer and dispatches
    nothing, so the windup is left unfinished with nothing pending. *)
Theorem skipped_absent_clears_advance_timer :
  let c1 := mount (abProps (Some false)) in
  let c2 := step (Rerender (abProps None)) c1 in
  advanceTimers c1 = [(2, AdvanceCallback)]
  /\ state c2 = state c1
  /\ isFinished (windup (state c2)) = false
  /\ timers (world c2) = []
  /\ trace (world c2) = trace (world c1) ++ [ClearTimeout 2]
  /\ forall h, step (TimerFires h) c2 = c2.
Proof.
  vm_compute. repeat split; reflexivity.
Qed.

(** C2 fails as stated: [skip()] on five elements reveals the last one
    only. *)
Lemma skip_reveals_last_only :
  reveals (trace (world (step Skip (mount helloProps)))) = [(7, "e"%string)]
  /\ List.length (reveals (trace (world (step Skip (mount helloProps))))) <> 5.
Proof. vm_compute. split; [reflexivity|discriminate]. Qed.

(** C4 fails as stated: a negative pace goes to [setTimeout] as it is. *)
Lemma negative_pace_not_clamped :
  trace (world (step (TimerFires 1) (mount (abProps None)))) =
  [SetTimeout 1 AdvanceCallback (Num 0);
   ClearTimeout 1;
   SetTimeout 2 AdvanceCallback (Num (-5))].
Proof. vm_compute. reflexivity. Qed.

(** C5 fails as stated: on an empty sequence [rewind()] leaves the queued
    completion pending, and it is delivered afterwards. *)
Lemma rewind_keeps_completion_of_empty :
  let c := mount nothingProps in
  finishTimers c = [(1, FinishCallback (keep None))]
  /\ finishTimers (step RewindRequest c) = [(1, FinishCallback (keep None))]
  /\ completions (trace (world (step RewindRequest c))) = []
  /\ completions (trace (world (run [RewindRequest; TimerFires 1] c))) = [9].
Proof. vm_compute. repeat split; reflexivity. Qed.

(** Witnesses *)

Lemma skip_when_finished_is_noop_witness : step Skip helloSkipped = helloSkipped.
Proof.
  apply skip_when_finished_is_noop.
  - unfold helloSkipped. apply reach_step, reach_mount.
  - vm_compute. reflexivity.
Defined.

Lemma first_advance_delay_is_zero_witness :
  windupEffect ab (isFinished ab) emptyWorld =
  (true,
   {| timeoutRef := Some 1;
      timers := [(1, AdvanceCallback)];
      nextHandle := 2;
      queue := [];
      trace := [SetTimeout 1 AdvanceCallback (Num 0)] |}).
Proof.
  apply (@first_advance_delay_is_zero SpecModel.windupModule ab emptyWorld); reflexivity.
Defined.

Lemma pace_delay_passed_unchanged_witness :
  windupEffect (next ab) (isFinished (next ab)) emptyWorld =
  (true,
   {| timeoutRef := Some 1;
      timers := [(1, AdvanceCallback)];
      nextHandle := 2;
      queue := [];
      trace := [SetTimeout 1 AdvanceCallback (Num (-5))] |}).
Proof.
  apply (@pace_delay_passed_unchanged SpecModel.windupModule (next ab) emptyWorld).
  reflexivity.
Defined.

Lemma reveals_only_last_played_witness :
  reveals (trace (world (step Skip (mount helloProps)))) =
  reveals (trace (world (mount helloProps)))
  ++ (if Object_is (windup (state (mount helloProps)))
                   (windup (state (step Skip (mount helloProps))))
      then [] else onCharCalls (windup (state (step Skip (mount helloProps))))).
Proof.
  apply reveals_only_last_played. apply reach_mount.
Defined.

Lemma at_most_one_advance_timer_witness :
  List.length (advanceTimers (mount helloProps)) <= 1.
Proof.
  exact (proj1 (at_most_one_advance_timer (mount helloProps) (reach_mount helloProps))).
Defined.

Lemma completion_cancelled_when_unfinished_witness :
  finishTimers (step RewindRequest helloSkipped) = [].
Proof.
  refine (proj1 (completion_cancelled_when_unfinished helloSkipped RewindRequest _ _)).
  - unfold helloSkipped. apply reach_step, reach_mount.
  - vm_compute. reflexivity.
Defined.


End OnSpecModel.

Section Further.
Context {WM : WindupModule}.

(** X1.  The render loop ends: the replace effect and the skipped effect are
    the only ones that dispatch, and their dependencies are arguments of
    the hook, so a second render with the same arguments dispatches
    nothing.  Any budget of two renders or more gives the same component,
    with nothing left to reduce. *)
Theorem settle_two_renders_suffice : forall n props c,
  settle (S (S n)) props c = settle 2 props c
  /\ queue (world (settle (S (S n)) props c)) = [].
Proof.
  intros n props c. split.
  - rewrite (settle_two n), (settle_two 0). reflexivity.
  - rewrite settle_two. destruct (queue (world (render props c))) eqn:E; auto.
    apply (render_same_props_quiet _ _ (render_lastRender props c)).
Qed.

(** X2.  [rewind()], [skip()] on an unfinished windup, and the advance timeout
    each take the state through exactly one reducer step: "rewind",
    "fast-forward" and "next". *)
Theorem callbacks_reduce_one_action : forall c,
  Reachable c ->
  state (step RewindRequest c) = windupReducer (state c) Rewind
  /\ (isFinished (windup (state c)) = false ->
      state (step Skip c) = windupReducer (state c) FastForward)
  /\ (forall h, In (h, AdvanceCallback) (timers (world c)) ->
      state (step (TimerFires h) c) = windupReducer (state c) Next).
Proof.
  intros c Hr. apply reachable_quiescent in Hr.
  destruct (q_render Hr) as [p0 Hp0].
  split; [|split].
  - rewrite (step_state _ c _ Hr Hp0). reflexivity.
  - intros Hnf. rewrite (step_state _ c _ Hr Hp0). simpl. now rewrite Hnf.
  - intros h Hin. rewrite (step_state _ c _ Hr Hp0). simpl.
    now rewrite (In_findTimer h _ _ (ok_nodup (cons_timers (q_cons Hr))) Hin).
Qed.

(** X3.  A render with new arguments: a new [windupInit] object replaces the
    state first, and a changed [skipped] then fast-forwards or rewinds the
    windup that is in the state by then; arguments that did not change
    dispatch nothing. *)
Theorem rerender_replaces_then_skips : forall c r props,
  Reachable c -> lastRender c = Some r ->
  state (step (Rerender props) c) =
  fold_left windupReducer
    ((if Object_is (windupInit (renderProps r)) (windupInit props)
      then [] else [Replace (windupInit props)])
     ++ (if optBoolEqb (skipped (options (renderProps r))) (skipped (options props))
         then []
         else match skipped (options props) with
              | Some true => [FastForward]
              | Some false => [Rewind]
              | None => []
              end))
    (state c).
Proof.
  intros c r props Hr Hl. apply reachable_quiescent in Hr.
  rewrite (step_state _ c _ Hr Hl). reflexivity.
Qed.

(** X4.  No timer outlives its purpose: while the windup is finished no advance
    timer is pending, and once the completion has been delivered no timer
    is pending at all. *)
Theorem finished_leaves_no_advance_timer : forall c,
  Reachable c -> isFinished (windup (state c)) = true ->
  advanceTimers c = []
  /\ (didFinishOnce (state c) = true -> timers (world c) = []).
Proof.
  intros c Hr Hf. apply reachable_quiescent in Hr. split.
  - unfold advanceTimers.
    destruct (filter isAdvance (timers (world c))) as [|[h cb] l] eqn:E; auto.
    assert (Hin : In (h, cb) (filter isAdvance (timers (world c))))
      by (rewrite E; now left).
    apply filter_In in Hin. destruct Hin as [Hin Ha].
    destruct cb as [|o]; [|discriminate].
    exfalso. eapply finished_no_advance; eauto.
  - intros Hd. now apply done_no_timers.
Qed.

(** X5.  [onFinished] is only ever called from the completion timeout: an
    event calls it when it is that timeout firing, and [skip()],
    [rewind()], the advance timeout and renders never call it. *)
Theorem onFinished_only_from_timeout : forall c e,
  Reachable c ->
  completions (trace (world (step e c))) =
  completions (trace (world c))
  ++ match e with
     | TimerFires h =>
         match findTimer h (timers (world c)) with
         | Some (FinishCallback o) => optionToList (onFinished o)
         | _ => []
         end
     | _ => []
     end.
Proof.
  intros c e Hr. apply reachable_quiescent in Hr.
  now rewrite (step_completions e c Hr).
Qed.

(** X6.  Mounting: the state starts from [windupInit], fast-forwarded if
    [skipped] is true and rewound if it is false, with [didFinishOnce]
    false; nothing is left to reduce and [onFinished] has not been
    called. *)
Theorem mount_starts_from_skipped : forall props,
  state (mount props) =
  match skipped (options props) with
  | Some true =>
      {| windup := fastForward (windupInit props); didFinishOnce := false |}
  | Some false =>
      {| windup := rewind (windupInit props); didFinishOnce := false |}
  | None => {| windup := windupInit props; didFinishOnce := false |}
  end
  /\ queue (world (mount props)) = []
  /\ completions (trace (world (mount props))) = [].
Proof.
  intros props. split; [|split].
  - rewrite mount_state. unfold skippedActions.
    now destruct (skipped (options props)) as [[]|].
  - exact (q_queue (mount_quiescent props)).
  - apply mount_output.
Qed.

Lemma render_advance : forall props c r,
  Consistent 0 c -> lastRender c = Some r ->
  Object_is (windup (renderState r)) (windup (state (render props c))) = false ->
  isFinished (windup (state (render props c))) = false ->
  exists h, In (h, AdvanceCallback) (timers (world (render props c)))
            /\ nextHandle (world c) <= h.
Proof.
  intros props c r Hc Hl Hne Hnf.
  destruct (render_rendered 0 props c Hc) as (_ & _ & H).
  apply H; auto. rewrite Hl. simpl. unfold sameDeps5. now rewrite Hne.
Qed.

Lemma one_advance : forall c h,
  Quiescent c -> In (h, AdvanceCallback) (timers (world c)) ->
  advanceTimers c = [(h, AdvanceCallback)] /\ timeoutRef (world c) = Some h.
Proof.
  intros c h Hq Hin. split.
  - assert (Hin' : In (h, AdvanceCallback) (advanceTimers c)).
    { apply filter_In. split; auto. }
    pose proof (advance_at_most_one c Hq) as Hlen.
    revert Hin' Hlen. generalize (advanceTimers c).
    intros [|t [|t' l]]; simpl; intros Hin' Hlen.
    + contradiction.
    + destruct Hin' as [->|[]]. reflexivity.
    + lia.
  - now destruct (ok_adv (cons_timers (q_cons Hq)) h Hin).
Qed.

(** X7.  The advance loop keeps going: when an event leaves another windup
    object in the state and that windup is not finished, exactly one
    advance timer is pending afterwards, [timeoutRef] holds it, and it was
    set during the event. *)
Theorem advance_rescheduled_on_change : forall c e,
  Reachable c ->
  Object_is (windup (state c)) (windup (state (step e c))) = false ->
  isFinished (windup (state (step e c))) = false ->
  exists h,
    advanceTimers (step e c) = [(h, AdvanceCallback)]
    /\ timeoutRef (world (step e c)) = Some h
    /\ nextHandle (world c) <= h.
Proof.
  intros c e Hr Hne Hnf. apply reachable_quiescent in Hr.
  pose proof (step_quiescent e c Hr) as Hq'.
  destruct (q_render Hr) as [p0 Hp0].
  assert (Hex : exists h, In (h, AdvanceCallback) (timers (world (step e c)))
                          /\ nextHandle (world c) <= h).
  { revert Hne Hnf. rewrite (step_shape e c _ Hp0).
    pose proof (firstPhase_consistent e _ c Hr Hp0) as Hc1.
    pose proof (firstPhase_nextHandle e _ c Hr Hp0) as Hn1.
    destruct (firstPhase_state e _ c Hr Hp0) as [Hs1 Hl1].
    set (c1 := fst (firstPhase e _ c)) in *.
    set (p1 := snd (firstPhase e _ c)) in *.
    destruct (queue (world c1)) eqn:Hq1.
    - rewrite Hs1, Object_is_refl. discriminate.
    - intros Hne Hnf.
      destruct (render_advance p1 c1 _ Hc1 Hl1 Hne Hnf) as (h & Hin & Hle).
      exists h. split; auto. lia. }
  destruct Hex as (h & Hin & Hle).
  destruct (one_advance _ h Hq' Hin) as [Ha Href].
  exists h. auto.
Qed.

(** X8.  An event schedules an advance only when it changes the windup object
    or its finished flag and the new windup is not finished, and then with
    the delay [lastEl ? getPace(lastEl, nextEl) : 0] of the new windup. *)
Theorem advance_scheduled_with_pace : forall c e,
  Reachable c ->
  advanceDelays (trace (world (step e c))) =
  advanceDelays (trace (world c))
  ++ (if Object_is (windup (state c)) (windup (state (step e c)))
         && Bool.eqb (isFinished (windup (state c)))
                     (isFinished (windup (state (step e c))))
      then []
      else if isFinished (windup (state (step e c))) then []
           else [advanceDelay (windup (state (step e c)))]).
Proof.
  intros c e Hr. apply reachable_quiescent in Hr.
  rewrite (step_delays e c Hr). reflexivity.
Qed.

(** X9.  An element that is the empty string is falsy in both tests of the
    hook: its onChar callbacks are not called, and the advance after it is
    scheduled with delay 0 whatever the pace function. *)
Theorem empty_string_element_is_skipped_over : forall (wd : Windup) (w : World),
  lastPlayedElement wd = Some EmptyString ->
  onCharEffect wd w = (tt, w) /\ advanceDelay wd = Num 0.
Proof.
  intros wd w Hl. unfold onCharEffect, advanceDelay. rewrite Hl. simpl.
  now rewrite andb_false_r.
Qed.

Lemma reduceQueue_id : forall c, queue (world c) = [] -> reduceQueue c = c.
Proof.
  intros [st lr fc wc [ref ts nh q tr]] Hq. simpl in Hq. subst q. reflexivity.
Qed.

(** X10.  Rendering again with the same [windupInit] object, the same [skipped]
    and the same [options] object runs no effect: no dispatch, no timer
    set or cleared, no callback. *)
Theorem same_arguments_render_is_noop : forall c r props,
  Reachable c -> lastRender c = Some r ->
  Object_is (windupInit (renderProps r)) (windupInit props) = true ->
  optBoolEqb (skipped (options (renderProps r))) (skipped (options props)) = true ->
  sameObject (identity (options (renderProps r))) (identity (options props)) = true ->
  step (Rerender props) c =
  {| state := state c;
     lastRender := Some {| renderProps := props; renderState := state c |};
     finishedCleanup := finishedCleanup c;
     windupCleanup := windupCleanup c;
     world := world c |}.
Proof.
  intros c r props Hr Hl H1 H2 H4. apply reachable_quiescent in Hr.
  destruct (q_render Hr) as [p0 Hp0].
  assert (r = {| renderProps := p0; renderState := state c |}) by congruence.
  subst r. simpl in H1, H2, H4.
  assert (Hrender : render props c =
    {| state := state c;
       lastRender := Some {| renderProps := props; renderState := state c |};
       finishedCleanup := finishedCleanup c;
       windupCleanup := windupCleanup c;
       world := world c |}).
  { unfold render. rewrite (reduceQueue_id c (q_queue Hr)).
    unfold useWindup, commitEffects. rewrite Hp0. simpl.
    unfold sameDeps1, sameDeps2, sameDeps3, sameDeps4, sameDeps5. simpl.
    rewrite H1, H2, H4, Object_is_refl, !eqb_reflx. reflexivity. }
  rewrite (step_shape _ c _ Hp0). cbn [firstPhase fst snd].
  rewrite Hrender. simpl. now rewrite (q_queue Hr).
Qed.

(** X11.  With a new [options] object at a render (an object literal in the
    component body), a completion that is due is queued again: the pending
    completion timeout is cleared and a new one, closing over the new
    options, is set. *)
Theorem new_options_requeue_completion : forall c r props,
  Reachable c -> lastRender c = Some r ->
  Object_is (windupInit (renderProps r)) (windupInit props) = true ->
  optBoolEqb (skipped (options (renderProps r))) (skipped (options props)) = true ->
  sameObject (identity (options (renderProps r))) (identity (options props)) = false ->
  isFinished (windup (state c)) = true -> didFinishOnce (state c) = false ->
  timers (world (step (Rerender props) c)) =
    [(nextHandle (world c), FinishCallback (options props))]
  /\ state (step (Rerender props) c) = state c
  /\ completions (trace (world (step (Rerender props) c))) =
     completions (trace (world c)).
Proof.
  intros c r props Hr Hl H1 H2 H4 Hf Hd. apply reachable_quiescent in Hr.
  destruct (q_render Hr) as [p0 Hp0].
  assert (r = {| renderProps := p0; renderState := state c |}) by congruence.
  subst r. simpl in H1, H2, H4.
  destruct (finish_timer_unique c Hr Hf Hd) as (h & o & Hft).
  rewrite <- (finished_timers c Hr Hf) in Hft.
  assert (Hfc : finishedCleanup c = Some h).
  { apply (ok_fin (cons_timers (q_cons Hr)) h o). rewrite Hft. now left. }
  split; [|split].
  - rewrite (step_shape _ c _ Hp0). cbn [firstPhase fst snd].
    assert (Hw : world (render props c) =
      {| timeoutRef := timeoutRef (world c);
         timers := [(nextHandle (world c), FinishCallback (options props))];
         nextHandle := S (nextHandle (world c));
         queue := [];
         trace := (trace (world c) ++ [ClearTimeout h])
                  ++ [SetTimeout (nextHandle (world c))
                        (FinishCallback (options props)) (Num 0)] |}).
    { unfold render. rewrite (reduceQueue_id c (q_queue Hr)).
      unfold useWindup, commitEffects. rewrite Hp0, Hfc. simpl.
      unfold sameDeps1, sameDeps2, sameDeps3, sameDeps4, sameDeps5. simpl.
      rewrite H1, H2, H4, Object_is_refl, !eqb_reflx, Hf, Hd. simpl.
      rewrite Hft, (q_queue Hr). simpl. rewrite Nat.eqb_refl. reflexivity. }
    rewrite Hw. simpl. rewrite Hw. reflexivity.
  - rewrite (step_state _ c _ Hr Hp0). simpl.
    unfold sameDeps1, sameDeps2. simpl. now rewrite H1, H2.
  - rewrite (step_completions _ c Hr). simpl. now rewrite app_nil_r.
Qed.

(** X12.  Every change of [options.skipped] clears the pending advance timer,
    also a change to absent: the advance timers pending afterwards were
    all set during the render.  A change to absent dispatches nothing, so
    with the same [windupInit] the state stays as it is. *)
Theorem skipped_change_clears_advance_timer : forall c r props,
  Reachable c -> lastRender c = Some r ->
  optBoolEqb (skipped (options (renderProps r))) (skipped (options props)) = false ->
  (Object_is (windupInit (renderProps r)) (windupInit props) = true ->
   skipped (options props) = None ->
   state (step (Rerender props) c) = state c)
  /\ (forall h, In (h, AdvanceCallback) (timers (world (step (Rerender props) c))) ->
                nextHandle (world c) <= h).
Proof.
  intros c r props Hr Hl H2. apply reachable_quiescent in Hr. split.
  - intros H1 Hs. rewrite (step_state _ c _ Hr Hl). simpl.
    unfold sameDeps1, sameDeps2, skippedActions. now rewrite H1, H2, Hs.
  - intros h. rewrite (step_shape _ c _ Hl). cbn [firstPhase fst snd].
    destruct (render_rendered 0 props c (Quiescent_consistent c Hr)) as (R & Hn & _).
    rewrite Hl in R. simpl in R. unfold sameDeps2 in R. rewrite H2 in R. simpl in R.
    destruct (queue (world (render props c))).
    + intros Hin.
      now destruct (ok_adv (cons_timers (rd_cons R)) h Hin) as (_ & _ & Hle).
    + intros Hin.
      eapply render_keeps_floor; [exact (rd_cons R)|exact Hn|exact Hin].
Qed.

End Further.

Module FurtherOnSpecModel.
Import Scenarios.

Lemma callbacks_reduce_one_action_witness :
  state (step RewindRequest (mount helloProps)) =
  windupReducer (state (mount helloProps)) Rewind.
Proof.
  exact (proj1 (callbacks_reduce_one_action (mount helloProps) (reach_mount helloProps))).
Defined.

Lemma rerender_replaces_then_skips_witness :
  state (step (Rerender (abProps (Some true))) (mount helloProps)) =
  {| windup := fastForward ab; didFinishOnce := false |}.
Proof.
  apply (rerender_replaces_then_skips (mount helloProps)
           {| renderProps := helloProps; renderState := state (mount helloProps) |}
           (abProps (Some true))).
  - apply reach_mount.
  - vm_compute. reflexivity.
Defined.

Lemma finished_leaves_no_advance_timer_witness : advanceTimers helloSkipped = [].
Proof.
  refine (proj1 (finished_leaves_no_advance_timer helloSkipped _ _)).
  - unfold helloSkipped. apply reach_step, reach_mount.
  - vm_compute. reflexivity.
Defined.

Lemma onFinished_only_from_timeout_witness :
  completions (trace (world (step (TimerFires 2) helloSkipped))) =
  completions (trace (world helloSkipped)) ++ [9].
Proof.
  apply (onFinished_only_from_timeout helloSkipped (TimerFires 2)).
  unfold helloSkipped. apply reach_step, reach_mount.
Defined.

Lemma advance_rescheduled_on_change_witness :
  exists h,
    advanceTimers (step (TimerFires 1) (mount helloProps)) = [(h, AdvanceCallback)]
    /\ timeoutRef (world (step (TimerFires 1) (mount helloProps))) = Some h
    /\ nextHandle (world (mount helloProps)) <= h.
Proof.
  apply advance_rescheduled_on_change.
  - apply reach_mount.
  - vm_compute. reflexivity.
  - vm_compute. reflexivity.
Defined.

Lemma advance_scheduled_with_pace_witness :
  advanceDelays (trace (world (step (TimerFires 1) (mount (abProps None))))) =
  advanceDelays (trace (world (mount (abProps None)))) ++ [Num (-5)].
Proof.
  apply (advance_scheduled_with_pace (mount (abProps None)) (TimerFires 1)).
  apply reach_mount.
Defined.

Lemma empty_string_element_is_skipped_over_witness :
  onCharEffect gap emptyWorld = (tt, emptyWorld) /\ advanceDelay gap = Num 0.
Proof.
  apply empty_string_element_is_skipped_over. reflexivity.
Defined.

Lemma same_arguments_render_is_noop_witness :
  world (step (Rerender helloProps) (mount helloProps)) = world (mount helloProps).
Proof.
  refine (f_equal world
    (same_arguments_render_is_noop (mount helloProps)
       {| renderProps := helloProps; renderState := state (mount helloProps) |}
       helloProps _ _ _ _ _)).
  - apply reach_mount.
  - vm_compute. reflexivity.
  - reflexivity.
  - reflexivity.
  - reflexivity.
Defined.

Lemma new_options_requeue_completion_witness :
  timers (world (step (Rerender {| windupInit := hello; options := inlineOptions |})
                      helloSkipped)) =
  [(nextHandle (world helloSkipped), FinishCallback inlineOptions)].
Proof.
  refine (proj1
    (new_options_requeue_completion helloSkipped
       {| renderProps := helloProps; renderState := state helloSkipped |}
       {| windupInit := hello; options := inlineOptions |} _ _ _ _ _ _ _)).
  - unfold helloSkipped. apply reach_step, reach_mount.
  - vm_compute. reflexivity.
  - reflexivity.
  - reflexivity.
  - reflexivity.
  - vm_compute. reflexivity.
  - vm_compute. reflexivity.
Defined.

Lemma skipped_change_clears_advance_timer_witness :
  state (step (Rerender (abProps None)) (mount (abProps (Some false)))) =
  state (mount (abProps (Some false))).
Proof.
  refine (proj1
    (skipped_change_clears_advance_timer (mount (abProps (Some false)))
       {| renderProps := abProps (Some false);
          renderState := state (mount (abProps (Some false))) |}
       (abProps None) _ _ _) _ _).
  - apply reach_mount.
  - vm_compute. reflexivity.
  - reflexivity.
  - reflexivity.
  - reflexivity.
Defined.

End FurtherOnSpecModel.
